(** * online_hmm: the distribution models of [distributions.py]

    A shallow embedding of [Gaussian], [SquareDistance], [KL] and
    [KLSufficientStatistics], and the properties their specification states.

    Numbers.  A numpy [float64] is modelled by [float64] below: an exact real
    number, or one of the three special values that numpy arithmetic produces
    instead of raising ([inf], [-inf], [nan]).  Rounding, overflow and the
    sign of zero are not modelled: finite arithmetic is exact.

    Arrays.  A 1-D array is a list; a 2-D array is a list of rows together
    with its number of columns, so that an array with no row still has a
    shape.  numpy refuses operands whose shapes do not agree; the functions
    below are total and the theorems state the shapes they are about.

    Errors.  A method returns [Ok v] or [Raise e]; the exceptions modelled
    are the ones the source can raise on well-shaped arguments. *)

From Stdlib Require Import Reals Lra Lia List Bool PeanoNat.
Import ListNotations.

Open Scope R_scope.

(** ** float64 *)

Inductive float64 : Type :=
| Fin (r : R)
| PInf
| NInf
| NaN.

Coercion Fin : R >-> float64.

(** The sign of a real number: [Lt] negative, [Eq] zero, [Gt] positive. *)
Definition Rsign (r : R) : comparison :=
  match total_order_T r 0 with
  | inleft (left _) => Lt
  | inleft (right _) => Eq
  | inright _ => Gt
  end.

Definition fsign (x : float64) : comparison :=
  match x with
  | Fin r => Rsign r
  | PInf => Gt
  | NInf => Lt
  | NaN => Eq
  end.

(** Sign of a product; [Eq] stands for a zero factor. *)
Definition sign_mul (s t : comparison) : comparison :=
  match s, t with
  | Eq, _ | _, Eq => Eq
  | Gt, Gt | Lt, Lt => Gt
  | Gt, Lt | Lt, Gt => Lt
  end.

(** The infinity of a given sign; the sign of zero gives [nan]
    (as in [inf * 0] and [0 / 0]). *)
Definition inf_of (s : comparison) : float64 :=
  match s with
  | Gt => PInf
  | Lt => NInf
  | Eq => NaN
  end.

Definition fneg (x : float64) : float64 :=
  match x with
  | Fin r => Fin (- r)
  | PInf => NInf
  | NInf => PInf
  | NaN => NaN
  end.

Definition fadd (x y : float64) : float64 :=
  match x, y with
  | NaN, _ | _, NaN => NaN
  | Fin a, Fin b => Fin (a + b)
  | PInf, NInf | NInf, PInf => NaN
  | PInf, _ | _, PInf => PInf
  | NInf, _ | _, NInf => NInf
  end.

Definition fsub (x y : float64) : float64 := fadd x (fneg y).

Definition fmul (x y : float64) : float64 :=
  match x, y with
  | NaN, _ | _, NaN => NaN
  | Fin a, Fin b => Fin (a * b)
  | _, _ => inf_of (sign_mul (fsign x) (fsign y))
  end.

(** numpy's true division never raises: a zero divisor gives [nan] or an
    infinity (and a RuntimeWarning, which is not an exception). *)
Definition fdiv (x y : float64) : float64 :=
  match x, y with
  | NaN, _ | _, NaN => NaN
  | Fin a, Fin b =>
      match Req_dec_T b 0 with
      | left _ => inf_of (Rsign a)
      | right _ => Fin (a / b)
      end
  | Fin _, _ => Fin 0
  | _, Fin b =>
      match Req_dec_T b 0 with
      | left _ => x
      | right _ => inf_of (sign_mul (fsign x) (Rsign b))
      end
  | _, _ => NaN
  end.

Fixpoint fpow (x : float64) (n : nat) : float64 :=
  match n with
  | O => Fin 1
  | S n' => fmul x (fpow x n')
  end.

Definition np_exp (x : float64) : float64 :=
  match x with
  | Fin r => Fin (exp r)
  | PInf => PInf
  | NInf => Fin 0
  | NaN => NaN
  end.

Definition np_log (x : float64) : float64 :=
  match x with
  | Fin r =>
      match Rsign r with
      | Gt => Fin (ln r)
      | Eq => NInf
      | Lt => NaN
      end
  | PInf => PInf
  | _ => NaN
  end.

Definition np_sqrt (x : float64) : float64 :=
  match x with
  | Fin r =>
      match Rsign r with
      | Lt => NaN
      | _ => Fin (sqrt r)
      end
  | PInf => PInf
  | _ => NaN
  end.

Definition np_pi : float64 := Fin PI.

Declare Scope f64_scope.
Delimit Scope f64_scope with f64.
Bind Scope f64_scope with float64.
Infix "+" := fadd : f64_scope.
Infix "-" := fsub : f64_scope.
Infix "*" := fmul : f64_scope.
Infix "/" := fdiv : f64_scope.
Notation "- x" := (fneg x) : f64_scope.
Infix "**" := fpow (at level 30, right associativity) : f64_scope.

(** Predicates on values.  [inf], [-inf] and [nan] satisfy none of them:
    non-negative means finite and [>= 0], positive means finite and [> 0]. *)
Definition finite (x : float64) : Prop :=
  match x with Fin _ => True | _ => False end.

Definition fnonneg (x : float64) : Prop :=
  match x with Fin r => 0 <= r | _ => False end.

Definition fpos (x : float64) : Prop :=
  match x with Fin r => 0 < r | _ => False end.

(** ** Results *)

Inductive exn : Type :=
| AssertionError
| IndexError
| TypeError
| LinAlgError.

Inductive result (A : Type) : Type :=
| Ok (a : A)
| Raise (e : exn).

Arguments Ok {A} a.
Arguments Raise {A} e.

Definition bind {A B : Type} (m : result A) (k : A -> result B) : result B :=
  match m with
  | Ok a => k a
  | Raise e => Raise e
  end.

Notation "x <- m ;; k" := (bind m (fun x => k))
  (at level 61, m at next level, right associativity).

Definition raises {A : Type} (m : result A) : Prop :=
  exists e, m = Raise e.

(** ** Arrays *)

Definition vec : Type := list float64.

Record ndarray2 : Type := mk2d {
  shape1 : nat;
  rows : list vec
}.

Definition shape0 (M : ndarray2) : nat := length (rows M).

(** Every row has [shape1] entries. *)
Definition wf2d (M : ndarray2) : Prop :=
  Forall (fun r => length r = shape1 M) (rows M).

Definition has_shape (n m : nat) (M : ndarray2) : Prop :=
  shape0 M = n /\ shape1 M = m /\ wf2d M.

Fixpoint zip_with {A B C : Type} (f : A -> B -> C) (l : list A) (l' : list B)
  : list C :=
  match l, l' with
  | a :: t, b :: t' => f a b :: zip_with f t t'
  | _, _ => []
  end.

Definition np_zeros (n : nat) : vec := repeat (Fin 0) n.
Definition np_ones (n : nat) : vec := repeat (Fin 1) n.
Definition np_zeros2 (n m : nat) : ndarray2 := mk2d m (repeat (np_zeros m) n).

(** [np.eye(n)] *)
Definition np_eye (n : nat) : ndarray2 :=
  mk2d n (map (fun i => map (fun j => if Nat.eqb i j then Fin 1 else Fin 0)
                          (seq 0 n)) (seq 0 n)).

(** [np.sum(v)] *)
Definition np_sum (v : vec) : float64 := fold_right fadd (Fin 0) v.

Definition vadd (a b : vec) : vec := zip_with fadd a b.
Definition vsub (a b : vec) : vec := zip_with fsub a b.
Definition vmul (a b : vec) : vec := zip_with fmul a b.
(** scalar [c * v] and [v / c] *)
Definition vscale (c : float64) (v : vec) : vec := map (fmul c) v.
Definition vdivs (v : vec) (c : float64) : vec := map (fun a => fdiv a c) v.

(** [a.dot(b)] for two 1-D arrays *)
Definition vdot (a b : vec) : float64 := np_sum (vmul a b).

(** [M[:, j]] *)
Definition col (j : nat) (M : ndarray2) : vec :=
  map (fun r => nth j r (Fin 0)) (rows M).

(** [M.T] *)
Definition transpose (M : ndarray2) : ndarray2 :=
  mk2d (shape0 M) (map (fun j => col j M) (seq 0 (shape1 M))).

(** [v.dot(M)] for a 1-D [v] and a 2-D [M] *)
Definition vec_mat (v : vec) (M : ndarray2) : vec :=
  map (fun j => vdot v (col j M)) (seq 0 (shape1 M)).

(** [M.dot(v)] for a 2-D [M] and a 1-D [v] *)
Definition mat_vec (M : ndarray2) (v : vec) : vec :=
  map (fun r => vdot r v) (rows M).

(** [A.dot(B)] for two 2-D arrays *)
Definition mat_mat (A B : ndarray2) : ndarray2 :=
  mk2d (shape1 B) (map (fun r => vec_mat r B) (rows A)).

(** scalar [c * M] and [M / c] *)
Definition mscale (c : float64) (M : ndarray2) : ndarray2 :=
  mk2d (shape1 M) (map (vscale c) (rows M)).
Definition mdivs (M : ndarray2) (c : float64) : ndarray2 :=
  mk2d (shape1 M) (map (fun r => vdivs r c) (rows M)).

(** [X - m]: the 1-D [m] is subtracted from every row of [X] *)
Definition sub_rows (X : ndarray2) (m : vec) : ndarray2 :=
  mk2d (shape1 X) (map (fun r => vsub r m) (rows X)).

(** [w[:, newaxis] * X]: row [i] of [X] is multiplied by [w[i]] *)
Definition scale_rows (w : vec) (X : ndarray2) : ndarray2 :=
  mk2d (shape1 X) (zip_with vscale w (rows X)).

(** [M * M] entrywise *)
Definition msquare (M : ndarray2) : ndarray2 :=
  mk2d (shape1 M) (map (fun r => vmul r r) (rows M)).

(** [np.sum(M, axis=0)]: the sum of the rows *)
Definition sum_axis0 (M : ndarray2) : vec :=
  fold_right vadd (np_zeros (shape1 M)) (rows M).

(** [np.sum(M, axis=1)]: the sum of each row *)
Definition sum_axis1 (M : ndarray2) : vec := map np_sum (rows M).

(** [M.mean(axis=0)]; with no row this is [0 / 0]. *)
Definition mean_axis0 (M : ndarray2) : vec :=
  vdivs (sum_axis0 M) (Fin (INR (shape0 M))).

(** [X[mask, :]]: the rows selected by a boolean mask *)
Fixpoint select {A : Type} (mask : list bool) (l : list A) : list A :=
  match mask, l with
  | b :: mask', a :: l' => if b then a :: select mask' l' else select mask' l'
  | _, _ => []
  end.

Definition select_rows (mask : list bool) (X : ndarray2) : ndarray2 :=
  mk2d (shape1 X) (select mask (rows X)).

(** [np.diag(M)] of a 2-D array *)
Definition np_diag (M : ndarray2) : vec :=
  map (fun i => nth i (nth i (rows M) []) (Fin 0))
      (seq 0 (Nat.min (shape0 M) (shape1 M))).

(** [l[i] = v] on a list *)
Fixpoint set_nth {A : Type} (i : nat) (l : list A) (v : A) : list A :=
  match l, i with
  | [], _ => []
  | _ :: t, O => v :: t
  | a :: t, S i' => a :: set_nth i' t v
  end.

(** [v[i] += d]; an index outside the array raises. *)
Definition add_at (i : nat) (v : vec) (d : float64) : result vec :=
  if Nat.ltb i (length v)
  then Ok (set_nth i v (fadd (nth i v (Fin 0)) d))
  else Raise IndexError.

(** [M[:, j] = x] *)
Definition set_col (j : nat) (M : ndarray2) (x : vec) : result ndarray2 :=
  if Nat.ltb j (shape1 M)
  then Ok (mk2d (shape1 M) (zip_with (fun r xi => set_nth j r xi) (rows M) x))
  else Raise IndexError.

(** [M[:, j] += x] *)
Definition add_col (j : nat) (M : ndarray2) (x : vec) : result ndarray2 :=
  if Nat.ltb j (shape1 M)
  then Ok (mk2d (shape1 M)
             (zip_with (fun r xi => set_nth j r (fadd (nth j r (Fin 0)) xi))
                       (rows M) x))
  else Raise IndexError.

(** The [weights] argument of [max_likelihood]: a boolean mask
    ([weights.dtype == np.bool], with [np.bool] the boolean dtype) or an
    array of numbers. *)
Inductive weights : Type :=
| WBool (mask : list bool)
| WFloat (w : vec).

Definition of_bool (b : bool) : float64 := if b then Fin 1 else Fin 0.

(** The numbers a weight array stands for in arithmetic: numpy reads
    [True] as 1 and [False] as 0. *)
Definition as_vec (w : weights) : vec :=
  match w with
  | WBool mask => map of_bool mask
  | WFloat v => v
  end.

(** scalar [c - v], broadcast over a 1-D array *)
Definition ssub (c : float64) (v : vec) : vec := map (fun a => fsub c a) v.

Definition vneg (v : vec) : vec := map fneg v.

(** ** Sufficient statistics *)

Module KLSufficientStatistics.

(** [cluster_id] is a cluster index, counted from 0. *)
Record t : Type := mk {
  cluster_id : nat;
  K : nat;
  rho0 : vec;
  rho : ndarray2
}.

Definition __init__ (x : vec) (cluster_id K size : nat) : result t :=
  let rho0 := np_zeros K in
  let rho := np_zeros2 size K in
  rho <- set_col cluster_id rho x ;;
  Ok (mk cluster_id K rho0 rho).

Definition online_update (self : t) (x : vec) (r : ndarray2) (step : float64)
  : result t :=
  let rho0 := vscale (fsub (Fin 1) step) (vec_mat (rho0 self) r) in
  rho0 <- add_at (cluster_id self) rho0 step ;;
  let rho := mscale (fsub (Fin 1) step) (mat_mat (rho self) r) in
  rho <- add_col (cluster_id self) rho (vscale step x) ;;
  Ok (mk (cluster_id self) (K self) rho0 rho).

(** A sequence of calls of [online_update], one per [(x, r, step)]. *)
Fixpoint online_updates (self : t) (us : list (vec * ndarray2 * float64))
  : result t :=
  match us with
  | [] => Ok self
  | (x, r, step) :: us' =>
      self' <- online_update self x r step ;; online_updates self' us'
  end.

End KLSufficientStatistics.

(** ** Distributions *)

(** The weighted mean both [SquareDistance] and [KL] (and, for numeric
    weights, [Gaussian]) compute. *)
Definition weighted_mean (X : ndarray2) (w : vec) : vec :=
  vdivs (sum_axis0 (scale_rows w X)) (np_sum w).

Module Gaussian.

Record t : Type := mk {
  mean : vec;
  cov : ndarray2
}.

Definition dim (self : t) : nat := length (mean self).

Definition max_likelihood (self : t) (X : ndarray2) (weights : weights)
  : result t :=
  let w := as_vec weights in
  let mean := weighted_mean X w in
  let diff := sub_rows X mean in
  let cov := mdivs (mat_mat (transpose diff) (scale_rows w diff)) (np_sum w) in
  Ok (mk mean cov).

(** [numpy.linalg.det] and [numpy.linalg.inv] are not part of the
    repository; [inv] raises on a singular matrix. *)
Section Linalg.
Variable det : ndarray2 -> float64.
Variable inv : ndarray2 -> result ndarray2.

(** [np.diag(diff.dot(inv(cov)).dot(diff.T))] *)
Definition mahalanobis (self : t) (diff : ndarray2) : result vec :=
  icov <- inv (cov self) ;;
  Ok (np_diag (mat_mat (mat_mat diff icov) (transpose diff))).

Definition distances (self : t) (X : ndarray2) : result vec :=
  let diff := sub_rows X (mean self) in
  m <- mahalanobis self diff ;;
  Ok (vscale (Fin 0.5) m).

Definition log_pdf (self : t) (X : ndarray2) : result vec :=
  let d := Fin (INR (length (mean self))) in
  let diff := sub_rows X (mean self) in
  let c := fsub (fmul (fmul (fneg (Fin 0.5)) d)
                      (np_log (fmul (Fin 2) np_pi)))
                (fmul (Fin 0.5) (np_log (det (cov self)))) in
  m <- mahalanobis self diff ;;
  Ok (ssub c (vscale (Fin 0.5) m)).

Definition pdf (self : t) (X : ndarray2) (normalized : bool) : result vec :=
  let d := length (mean self) in
  let diff := sub_rows X (mean self) in
  if normalized then
    let c := fdiv (Fin 1)
               (np_sqrt (fmul (fpow (fmul (Fin 2) np_pi) d)
                              (det (cov self)))) in
    m <- mahalanobis self diff ;;
    Ok (vscale c (map np_exp (vscale (fneg (Fin 0.5)) m)))
  else
    m <- mahalanobis self diff ;;
    Ok (map np_exp (vscale (fneg (Fin 0.5)) m)).
End Linalg.

End Gaussian.

Module SquareDistance.

Record t : Type := mk {
  mean : vec;
  sigma2 : option float64
}.

(** [None * np.eye(2)] is a TypeError. *)
Definition cov (self : t) : result ndarray2 :=
  match sigma2 self with
  | Some s => Ok (mscale s (np_eye 2))
  | None => Raise TypeError
  end.

Definition dim (self : t) : nat := length (mean self).

Definition distances (self : t) (X : ndarray2) : vec :=
  let diff := sub_rows X (mean self) in
  sum_axis1 (msquare diff).

Definition max_likelihood (self : t) (X : ndarray2) (weights : weights)
  : result t :=
  let mean :=
    match weights with
    | WBool mask => mean_axis0 (select_rows mask X)
    | WFloat w => weighted_mean X w
    end in
  let sigma2 :=
    match sigma2 self with
    | Some _ =>
        let diff := sub_rows X mean in
        let dists := sum_axis1 (msquare diff) in
        Some (fdiv (fmul (Fin 0.5) (vdot dists (as_vec weights)))
                   (np_sum (as_vec weights)))
    | None => None
    end in
  Ok (mk mean sigma2).

Definition log_pdf (self : t) (X : ndarray2) : result vec :=
  match sigma2 self with
  | None => Raise AssertionError
  | Some s =>
      let d := Fin (INR (length (mean self))) in
      let diff := sub_rows X (mean self) in
      let dists := sum_axis1 (msquare diff) in
      let c := fsub (fmul (fmul (fneg (Fin 0.5)) d)
                          (np_log (fmul (Fin 2) np_pi)))
                    (fmul (fmul (Fin 0.5) d) (np_log s)) in
      Ok (ssub c (vdivs (vscale (Fin 0.5) dists) s))
  end.

Definition pdf (self : t) (X : ndarray2) (normalized : bool) : result vec :=
  match sigma2 self with
  | None => Raise AssertionError
  | Some s =>
      let d := length (mean self) in
      let diff := sub_rows X (mean self) in
      let dists := sum_axis1 (msquare diff) in
      if normalized then
        let c := fdiv (Fin 1)
                   (np_sqrt (fpow (fmul (fmul (Fin 2) np_pi) s) d)) in
        Ok (vscale c (map np_exp (vdivs (vscale (fneg (Fin 0.5)) dists) s)))
      else
        Ok (map np_exp (vdivs (vscale (fneg (Fin 0.5)) dists) s))
  end.

End SquareDistance.

Module KL.

Record t : Type := mk {
  mean : vec
}.

Definition dim (self : t) : nat := length (mean self).

Definition distances (self : t) (X : ndarray2) : vec :=
  vneg (mat_vec X (map np_log (mean self))).

Definition max_likelihood (self : t) (X : ndarray2) (weights : weights)
  : result t :=
  match weights with
  | WBool mask => Ok (mk (mean_axis0 (select_rows mask X)))
  | WFloat w => Ok (mk (weighted_mean X w))
  end.

Definition online_update (self : t) (x : vec) (step : float64) : t :=
  mk (vadd (vscale (fsub (Fin 1) step) (mean self)) (vscale step x)).

Definition log_pdf (self : t) (X : ndarray2) : vec :=
  mat_vec X (map np_log (mean self)).

Definition pdf (self : t) (X : ndarray2) (normalized : bool) : vec :=
  map np_exp (mat_vec X (map np_log (mean self))).

Definition new_sufficient_statistics (self : t) (x : vec) (cluster_id K : nat)
  : result KLSufficientStatistics.t :=
  KLSufficientStatistics.__init__ x cluster_id K (length (mean self)).

Definition online_max_likelihood (self : t)
    (rho_obs : KLSufficientStatistics.t) (phi : vec) : t :=
  mk (vdivs (mat_vec (KLSufficientStatistics.rho rho_obs) phi)
            (vdot (KLSufficientStatistics.rho0 rho_obs) phi)).

End KL.

(** ** Notions the specification uses *)

(** The isotropic covariance [sigma2 · I] of dimension [D]. *)
Definition isotropic (sigma2 : float64) (D : nat) : ndarray2 :=
  mscale sigma2 (np_eye D).

Definition all_zero (w : vec) : Prop := Forall (fun a => a = Fin 0) w.

(** A value that is [0] or [nan]: what a product by a zero weight can be. *)
Definition zero_or_nan (x : float64) : Prop := x = Fin 0 \/ x = NaN.

Definition finite_vec (v : vec) : Prop := Forall finite v.
Definition finite_mat (M : ndarray2) : Prop := Forall finite_vec (rows M).
Definition nonneg_vec (v : vec) : Prop := Forall fnonneg v.
Definition nonneg_mat (M : ndarray2) : Prop := Forall nonneg_vec (rows M).

(** A probability vector: non-negative entries that sum to 1. *)
Definition prob_vector (v : vec) : Prop :=
  nonneg_vec v /\ np_sum v = Fin 1.

(** The invariant of [SquareDistance]: [sigma2 is None or sigma2 > 0]. *)
Definition sigma2_invariant (s : option float64) : Prop :=
  match s with
  | None => True
  | Some v => fpos v
  end.

(** The same with [>=] in place of [>]. *)
Definition sigma2_nonneg (s : option float64) : Prop :=
  match s with
  | None => True
  | Some v => fnonneg v
  end.

(** Non-negative, not all zero weights of length [N]. *)
Definition valid_weights (N : nat) (w : weights) : Prop :=
  length (as_vec w) = N /\ nonneg_vec (as_vec w) /\ fpos (np_sum (as_vec w)).

(** The unweighted sample mean of the rows of [X]: [Σ x_i / N]. *)
Definition sample_mean (X : ndarray2) : vec :=
  vdivs (fold_right vadd (np_zeros (shape1 X)) (rows X))
        (Fin (INR (shape0 X))).

(** The outer product [a bᵗ]. *)
Definition outer (a b : vec) : ndarray2 :=
  mk2d (length b) (map (fun ai => vscale ai b) a).

Definition madd (A B : ndarray2) : ndarray2 :=
  mk2d (shape1 B) (zip_with vadd (rows A) (rows B)).

(** The biased sample covariance of the rows of [X]:
    [Σ (x_i - mean)(x_i - mean)ᵗ / N]. *)
Definition sample_cov (X : ndarray2) : ndarray2 :=
  let m := sample_mean X in
  let D := shape1 X in
  mdivs (fold_right madd (np_zeros2 D D)
           (map (fun x => outer (vsub x m) (vsub x m)) (rows X)))
        (Fin (INR (shape0 X))).

(** The shapes [KLSufficientStatistics] keeps: [rho0] has [K] entries,
    [rho] has [K] columns, and [cluster_id] is one of the [K] clusters. *)
Definition wf_stats (st : KLSufficientStatistics.t) : Prop :=
  let K := KLSufficientStatistics.K st in
  length (KLSufficientStatistics.rho0 st) = K /\
  shape1 (KLSufficientStatistics.rho st) = K /\
  wf2d (KLSufficientStatistics.rho st) /\
  (KLSufficientStatistics.cluster_id st < K)%nat.

Definition nonneg_stats (st : KLSufficientStatistics.t) : Prop :=
  nonneg_vec (KLSufficientStatistics.rho0 st) /\
  nonneg_mat (KLSufficientStatistics.rho st).

(** One argument triple of [online_update] that fits a state with [K]
    clusters and observations of [size] entries: non-negative [x] and
    [r], and [step] in (0, 1]. *)
Definition valid_update (K size : nat) (u : vec * ndarray2 * float64) : Prop :=
  let '(x, r, step) := u in
  length x = size /\ nonneg_vec x /\
  has_shape K K r /\ nonneg_mat r /\
  exists s, step = Fin s /\ 0 < s <= 1.

(** [n] calls [online_update(x, r, step)] with the same arguments. *)
Definition repeat_update (self : KLSufficientStatistics.t) (x : vec)
    (r : ndarray2) (step : float64) (n : nat) : result KLSufficientStatistics.t :=
  KLSufficientStatistics.online_updates self (repeat (x, r, step) n).

(** Real-valued arrays, read as arrays of finite [float64]. *)
Definition lift (v : list R) : vec := map Fin v.

Definition lift2 (m : nat) (M : list (list R)) : ndarray2 :=
  mk2d m (map lift M).

(** The dot product of real vectors. *)
Definition Rdot (a b : list R) : R :=
  fold_right Rplus 0 (zip_with Rmult a b).

(** What [online_update] stores when [cluster_id] is in range: the
    decayed and mixed arrays with [step] (or [step * x]) added at
    [cluster_id]. *)
Definition rho0_next (self : KLSufficientStatistics.t) (r : ndarray2)
    (step : float64) : vec :=
  let v := vscale (fsub (Fin 1) step)
             (vec_mat (KLSufficientStatistics.rho0 self) r) in
  let i := KLSufficientStatistics.cluster_id self in
  set_nth i v (fadd (nth i v (Fin 0)) step).

Definition rho_next (self : KLSufficientStatistics.t) (x : vec) (r : ndarray2)
    (step : float64) : ndarray2 :=
  let M := mscale (fsub (Fin 1) step)
             (mat_mat (KLSufficientStatistics.rho self) r) in
  let j := KLSufficientStatistics.cluster_id self in
  mk2d (shape1 M)
       (zip_with (fun row xi => set_nth j row (fadd (nth j row (Fin 0)) xi))
                 (rows M) (vscale step x)).

(** The update of [rho0] on real numbers, for [r] the identity: every
    entry decays by [1 - s], then [s] is added at [cluster_id]. *)
Definition rho0_step (s : R) (cluster_id : nat) (l : list R) : list R :=
  let v := map (Rmult (1 - s)) l in
  set_nth cluster_id v (nth cluster_id v 0 + s).

(** ** Duration distributions *)

(** [np.arange(a, b)] for integers [a <= b], as an array of numbers. *)
Definition np_arange (a b : nat) : vec :=
  map (fun k => Fin (INR k)) (seq a (b - a)).

Module DurationDistribution.

Section LogPmf.
(** The [log_pmf] method of the subclass. *)
Variable log_pmf : vec -> vec.

Definition log_vec (D : nat) : vec := log_pmf (np_arange 1 (D + 1)).
End LogPmf.

End DurationDistribution.

Module PoissonDuration.

(** [D] is the maximum duration, a non-negative integer. *)
Record t : Type := mk {
  lmbda : float64;
  D : nat
}.

Section Scipy.
(** [scipy.stats.poisson.logpmf(k, mu)] on one number; scipy applies it
    to every entry of an array. *)
Variable poisson_logpmf : float64 -> float64 -> float64.

Definition log_pmf (self : t) (X : vec) : vec :=
  map (fun k => poisson_logpmf k (lmbda self)) X.

Definition log_vec (self : t) : vec :=
  DurationDistribution.log_vec (log_pmf self) (D self).
End Scipy.

End PoissonDuration.

Module NegativeBinomial.

Record t : Type := mk {
  r : float64;
  p : float64;
  D : nat
}.

Section Scipy.
(** [scipy.stats.nbinom.logpmf(k, n, p)] on one number. *)
Variable nbinom_logpmf : float64 -> float64 -> float64 -> float64.

Definition log_pmf (self : t) (X : vec) : vec :=
  map (fun k => nbinom_logpmf k (r self) (p self)) X.

Definition log_vec (self : t) : vec :=
  DurationDistribution.log_vec (log_pmf self) (D self).
End Scipy.

End NegativeBinomial.

(** ** Further notions *)

(** The sum of a list of real numbers. *)
Definition Rsum (l : list R) : R := fold_right Rplus 0 l.

(** A finite value between [lo] and [hi]. *)
Definition within (lo hi : R) (x : float64) : Prop :=
  match x with Fin r => lo <= r <= hi | _ => False end.

(** Every row of [r] sums to 1. *)
Definition row_stochastic (r : ndarray2) : Prop :=
  Forall (fun row => np_sum row = Fin 1) (rows r).

(** The indicator vector of [k] among [K] clusters. *)
Definition one_hot (K k : nat) : vec :=
  map (fun i => if Nat.eqb i k then Fin 1 else Fin 0) (seq 0 K).

(** [M.T == M] *)
Definition symmetric (M : ndarray2) : Prop := transpose M = M.

(** [n] calls [online_update(x, step)] of [KL] with the same arguments. *)
Definition KL_repeat_update (self : KL.t) (x : vec) (step : float64) (n : nat)
  : KL.t :=
  Nat.iter n (fun kl => KL.online_update kl x step) self.

(** [KL.online_update] on real numbers: [(1 - s) * m + s * x]. *)
Definition ema_step (s : R) (x m : list R) : list R :=
  zip_with Rplus (map (Rmult (1 - s)) m) (map (Rmult s) x).

(** The weighted sum of real rows of [D] entries: [Σ_i w_i · x_i]. *)
Definition Rwsum (D : nat) (w : list R) (XR : list (list R)) : list R :=
  fold_right (zip_with Rplus) (repeat 0 D)
             (zip_with (fun a r => map (Rmult a) r) w XR).

(** A finite value in the half-open interval (0, 1]. *)
Definition unit_interval (x : float64) : Prop :=
  match x with Fin r => 0 < r <= 1 | _ => False end.

(** Entry (j, k) of [diff.T.dot(w[:, newaxis] * diff)] on real numbers:
    [Σ_i diff[i][j] · (w_i · diff[i][k])]. *)
Definition Rgram (w : list R) (ds : list (list R)) (j k : nat) : R :=
  Rdot (map (fun r => nth j r 0) ds)
       (map (fun r => nth k r 0) (zip_with (fun a r => map (Rmult a) r) w ds)).

(** The quadratic form [vᵗ · E · v] of the D×D array with entries
    [E j k]. *)
Definition Rquad (D : nat) (E : nat -> nat -> R) (v : list R) : R :=
  Rdot v (map (fun j => Rdot (map (E j) (seq 0 D)) v) (seq 0 D)).

(** * Properties *)

(** Splits a [Forall] over an explicit list into one goal per element. *)
Ltac forall_list := repeat first [apply Forall_nil | apply Forall_cons].

(** ** Arithmetic of [float64] *)

Lemma Rsign_pos (r : R) : 0 < r -> Rsign r = Gt.
Proof.
  intros H. unfold Rsign.
  destruct (total_order_T r 0) as [[Hlt | Heq] | Hgt]; try reflexivity; lra.
Qed.

Lemma Rsign_zero : Rsign 0 = Eq.
Proof.
  unfold Rsign.
  destruct (total_order_T 0 0) as [[Hlt | Heq] | Hgt]; try reflexivity; lra.
Qed.

Lemma fmul_1_l (x : float64) : fmul (Fin 1) x = x.
Proof.
  destruct x; simpl; try reflexivity.
  - f_equal; lra.
  - rewrite Rsign_pos by lra. reflexivity.
  - rewrite Rsign_pos by lra. reflexivity.
Qed.

Lemma fadd_0_l (x : float64) : fadd (Fin 0) x = x.
Proof. destruct x; simpl; try reflexivity. f_equal; lra. Qed.

Lemma fmul_0_l (x : float64) : zero_or_nan (fmul (Fin 0) x).
Proof.
  destruct x; simpl; try rewrite Rsign_zero; simpl;
    try (right; reflexivity).
  left. f_equal. lra.
Qed.

Lemma fmul_zero_or_nan_r (c x : float64) :
  finite c -> zero_or_nan x -> zero_or_nan (fmul c x).
Proof.
  intros Hc [-> | ->]; destruct c; simpl in *; try contradiction.
  - left. f_equal. lra.
  - right. reflexivity.
Qed.

Lemma fmul_zero_l_any (x y : float64) :
  zero_or_nan x -> zero_or_nan (fmul x y).
Proof.
  intros [-> | ->].
  - apply fmul_0_l.
  - right. reflexivity.
Qed.

Lemma fadd_zero_or_nan (x y : float64) :
  zero_or_nan x -> zero_or_nan y -> zero_or_nan (fadd x y).
Proof.
  intros [-> | ->] [-> | ->]; simpl; try (right; reflexivity).
  left. f_equal. lra.
Qed.

Lemma fdiv_zero_or_nan_0 (x : float64) :
  zero_or_nan x -> fdiv x (Fin 0) = NaN.
Proof.
  intros [-> | ->]; simpl; try reflexivity.
  destruct (Req_dec_T 0 0) as [_ | Hne]; [| lra].
  rewrite Rsign_zero. reflexivity.
Qed.

Lemma fsub_nan_r (x : float64) : fsub x NaN = NaN.
Proof. destruct x; reflexivity. Qed.

Lemma fmul_nan_r (x : float64) : fmul x NaN = NaN.
Proof. destruct x; reflexivity. Qed.

Lemma fnonneg_finite (x : float64) : fnonneg x -> finite x.
Proof. destruct x; simpl; tauto. Qed.

Lemma fadd_finite (x y : float64) : finite x -> finite y -> finite (fadd x y).
Proof. destruct x, y; simpl; tauto. Qed.

Lemma fsub_finite (x y : float64) : finite x -> finite y -> finite (fsub x y).
Proof. destruct x, y; simpl; tauto. Qed.

Lemma fmul_finite (x y : float64) : finite x -> finite y -> finite (fmul x y).
Proof. destruct x, y; simpl; tauto. Qed.

Lemma fdiv_finite (x y : float64) : finite x -> fpos y -> finite (fdiv x y).
Proof.
  destruct x, y; simpl; try tauto.
  intros _ H. destruct (Req_dec_T r0 0); [lra | exact I].
Qed.

Lemma fadd_nonneg (x y : float64) : fnonneg x -> fnonneg y -> fnonneg (fadd x y).
Proof. destruct x, y; simpl; try tauto. lra. Qed.

Lemma fmul_nonneg (x y : float64) : fnonneg x -> fnonneg y -> fnonneg (fmul x y).
Proof. destruct x, y; simpl; try tauto. apply Rmult_le_pos. Qed.

Lemma fmul_self_nonneg (x : float64) : finite x -> fnonneg (fmul x x).
Proof. destruct x; simpl; try tauto. intros _. nra. Qed.

Lemma fdiv_nonneg (x y : float64) : fnonneg x -> fpos y -> fnonneg (fdiv x y).
Proof.
  destruct x, y; simpl; try tauto.
  intros Hx Hy. destruct (Req_dec_T r0 0); [lra |].
  simpl. apply Rmult_le_pos; [lra |].
  left. apply Rinv_0_lt_compat. lra.
Qed.

(** ** Lists and arrays *)

Lemma zip_with_length {A B C : Type} (f : A -> B -> C) (l : list A) (l' : list B) :
  length l = length l' -> length (zip_with f l l') = length l.
Proof.
  revert l'. induction l as [| a l IH]; intros [| b l'] H; simpl in *;
    try reflexivity; try discriminate.
  f_equal. apply IH. lia.
Qed.

Lemma set_nth_length {A : Type} (i : nat) (l : list A) (v : A) :
  length (set_nth i l v) = length l.
Proof.
  revert i. induction l as [| a l IH]; intros [| i]; simpl; auto.
Qed.

Lemma nth_set_nth_same {A : Type} (i : nat) (l : list A) (v d : A) :
  (i < length l)%nat -> nth i (set_nth i l v) d = v.
Proof.
  revert i. induction l as [| a l IH]; intros [| i] H; simpl in *; try lia.
  - reflexivity.
  - apply IH. lia.
Qed.

Lemma nth_set_nth_other {A : Type} (i j : nat) (l : list A) (v d : A) :
  i <> j -> nth j (set_nth i l v) d = nth j l d.
Proof.
  revert i j. induction l as [| a l IH]; intros [| i] [| j] H; simpl;
    try reflexivity; try congruence.
  apply IH. congruence.
Qed.

Lemma nth_np_zeros (n k : nat) : nth k (np_zeros n) (Fin 0) = Fin 0.
Proof.
  unfold np_zeros. revert k. induction n as [| n IH]; intros [| k]; simpl; auto.
Qed.

Lemma np_zeros_length (n : nat) : length (np_zeros n) = n.
Proof. apply repeat_length. Qed.

(** Column [k] of an array of zeros whose column [j] was set to [x]. *)
Lemma col_set_col_zeros (j k K : nat) (x : vec) :
  (j < K)%nat ->
  map (fun r => nth k r (Fin 0))
      (zip_with (fun r xi => set_nth j r xi) (repeat (np_zeros K) (length x)) x)
  = if Nat.eqb j k then x else np_zeros (length x).
Proof.
  intros Hj. induction x as [| a x IH]; simpl.
  - destruct (Nat.eqb j k); reflexivity.
  - rewrite IH. destruct (Nat.eqb_spec j k) as [-> | Hne].
    + rewrite nth_set_nth_same by (rewrite np_zeros_length; exact Hj).
      reflexivity.
    + rewrite nth_set_nth_other by exact Hne.
      rewrite nth_np_zeros. reflexivity.
Qed.

Lemma wf_set_col_zeros (j K : nat) (x : vec) :
  Forall (fun r => length r = K)
    (zip_with (fun r xi => set_nth j r xi) (repeat (np_zeros K) (length x)) x).
Proof.
  induction x as [| a x IH]; simpl; constructor.
  - rewrite set_nth_length. apply np_zeros_length.
  - exact IH.
Qed.

(** ** SquareDistance.cov *)

Lemma SquareDistance_cov_is_2x2 (mean : vec) (s : float64) :
  SquareDistance.cov (SquareDistance.mk mean (Some s)) = Ok (isotropic s 2).
Proof. reflexivity. Qed.

(** Whenever the mean does not have exactly two entries, [cov] is not the
    isotropic matrix of the dimension of the distribution. *)
Lemma SquareDistance_cov_not_isotropic (mean : vec) (s : float64) :
  length mean <> 2%nat ->
  let sd := SquareDistance.mk mean (Some s) in
  SquareDistance.cov sd <> Ok (isotropic s (SquareDistance.dim sd)).
Proof.
  intros Hlen sd Heq. unfold sd in Heq.
  rewrite SquareDistance_cov_is_2x2 in Heq.
  apply (f_equal (fun m => match m with Ok M => shape1 M | Raise _ => 2%nat end))
    in Heq.
  simpl in Heq. unfold SquareDistance.dim in Heq. simpl in Heq. congruence.
Qed.

(** C1 (the code departs from the claim).  The claim: [cov] is
    [sigma2 · I] of size D×D for a mean of dimension D.  The code builds
    [sigma2 * np.eye(2)] whatever D is: for the mean (0, 0, 0) and
    sigma2 = 1 the distribution has dimension 3, [cov] is the 2×2 identity,
    and it is not the 3×3 isotropic matrix. *)
Theorem SquareDistance_cov_dim3 :
  let sd := SquareDistance.mk [Fin 0; Fin 0; Fin 0] (Some (Fin 1)) in
  SquareDistance.dim sd = 3%nat /\
  SquareDistance.cov sd = Ok (mk2d 2 [[Fin 1; Fin 0]; [Fin 0; Fin 1]]) /\
  SquareDistance.cov sd <> Ok (isotropic (Fin 1) 3).
Proof.
  split; [reflexivity | split].
  - unfold SquareDistance.cov, mscale, np_eye, vscale. simpl.
    repeat (f_equal; try lra).
  - intros Heq. rewrite SquareDistance_cov_is_2x2 in Heq.
    apply (f_equal (fun m => match m with Ok M => shape1 M | Raise _ => 2%nat end))
      in Heq.
    discriminate Heq.
Qed.

(** ** SquareDistance.log_pdf and pdf *)

(** C7.  With [sigma2] unset, [log_pdf(X)] and [pdf(X, normalized)] raise
    the assertion error for every [X]; with [sigma2] set, both return a
    value. *)
Theorem SquareDistance_density_precondition :
  forall (mean : vec) (X : ndarray2) (normalized : bool),
    (SquareDistance.log_pdf (SquareDistance.mk mean None) X
       = Raise AssertionError /\
     SquareDistance.pdf (SquareDistance.mk mean None) X normalized
       = Raise AssertionError) /\
    (forall s : float64,
        (exists v, SquareDistance.log_pdf (SquareDistance.mk mean (Some s)) X
                   = Ok v) /\
        (exists v, SquareDistance.pdf (SquareDistance.mk mean (Some s)) X
                     normalized = Ok v)).
Proof.
  intros mean X normalized. split.
  - split; reflexivity.
  - intros s. split.
    + eexists. reflexivity.
    + destruct normalized; eexists; reflexivity.
Qed.

(** ** KLSufficientStatistics: construction *)

(** C6.  For [cluster_id < K] and [size = len(x)], the constructor
    succeeds, column [cluster_id] of [rho] is [x], every other column of
    [rho] is the zero vector, and [rho0] is the zero vector of length K. *)
Theorem KLSufficientStatistics_init_columns :
  forall (x : vec) (cluster_id K size : nat),
    (cluster_id < K)%nat ->
    size = length x ->
    exists st,
      KLSufficientStatistics.__init__ x cluster_id K size = Ok st /\
      KLSufficientStatistics.cluster_id st = cluster_id /\
      KLSufficientStatistics.K st = K /\
      has_shape size K (KLSufficientStatistics.rho st) /\
      col cluster_id (KLSufficientStatistics.rho st) = x /\
      (forall k, (k < K)%nat -> k <> cluster_id ->
                 col k (KLSufficientStatistics.rho st) = np_zeros size) /\
      KLSufficientStatistics.rho0 st = np_zeros K.
Proof.
  intros x cid K size Hcid ->.
  unfold KLSufficientStatistics.__init__, set_col, np_zeros2. simpl.
  destruct (Nat.ltb_spec cid K) as [_ | Hge]; [| lia].
  simpl. eexists. split; [reflexivity |]. simpl.
  repeat split.
  - unfold shape0. simpl. rewrite zip_with_length; rewrite repeat_length; reflexivity.
  - apply wf_set_col_zeros.
  - unfold col. simpl. rewrite col_set_col_zeros by exact Hcid.
    rewrite Nat.eqb_refl. reflexivity.
  - intros k _ Hne. unfold col. simpl.
    rewrite col_set_col_zeros by exact Hcid.
    destruct (Nat.eqb_spec cid k); [congruence | reflexivity].
Qed.

Lemma KLSufficientStatistics_init_columns_witness :
  exists st,
    KLSufficientStatistics.__init__ [Fin 5; Fin 7] 2 4 2 = Ok st /\
    KLSufficientStatistics.cluster_id st = 2%nat /\
    KLSufficientStatistics.K st = 4%nat /\
    has_shape 2 4 (KLSufficientStatistics.rho st) /\
    col 2 (KLSufficientStatistics.rho st) = [Fin 5; Fin 7] /\
    (forall k, (k < 4)%nat -> k <> 2%nat ->
               col k (KLSufficientStatistics.rho st) = np_zeros 2) /\
    KLSufficientStatistics.rho0 st = np_zeros 4.
Proof.
  apply (KLSufficientStatistics_init_columns [Fin 5; Fin 7] 2 4 2).
  - lia.
  - reflexivity.
Defined.

(** ** Real-valued arrays *)

Lemma np_sum_lift (l : list R) : np_sum (lift l) = Fin (fold_right Rplus 0 l).
Proof.
  unfold np_sum, lift.
  induction l as [| a l IH]; simpl; [reflexivity |].
  rewrite IH. reflexivity.
Qed.

Lemma vmul_lift (a b : list R) :
  vmul (lift a) (lift b) = lift (zip_with Rmult a b).
Proof.
  unfold vmul, lift.
  revert b. induction a as [| x a IH]; intros [| y b]; simpl; try reflexivity.
  f_equal. apply IH.
Qed.

Lemma vdot_lift (a b : list R) : vdot (lift a) (lift b) = Fin (Rdot a b).
Proof. unfold vdot. rewrite vmul_lift. apply np_sum_lift. Qed.

Lemma np_log_lift (m : list R) :
  Forall (fun a => 0 < a) m -> map np_log (lift m) = lift (map ln m).
Proof.
  induction 1 as [| a m Ha _ IH]; simpl; [reflexivity |].
  rewrite Rsign_pos by exact Ha. f_equal. exact IH.
Qed.

Lemma lift_finite (l : list R) : finite_vec (lift l).
Proof. induction l; constructor; simpl; auto. Qed.

Lemma finite_vec_lift (v : vec) : finite_vec v -> exists l, v = lift l.
Proof.
  induction 1 as [| a v Ha _ [l ->]].
  - exists []. reflexivity.
  - destruct a as [r | | |]; try contradiction.
    exists (r :: l). reflexivity.
Qed.

(** ** KL.pdf *)

(** C10.  For a strictly positive mean, [pdf(X, True)] and [pdf(X, False)]
    return the same array [exp(X · log(mean))]: row [x] of a real-valued
    batch gives [exp(Σ_j x_j · ln(mean_j))], with or without
    [normalized]. *)
Theorem KL_pdf_ignores_normalized :
  forall (mean : list R) (X : ndarray2),
    Forall (fun m => 0 < m) mean ->
    let self := KL.mk (lift mean) in
    KL.pdf self X true = KL.pdf self X false /\
    KL.pdf self X true = map np_exp (mat_vec X (lift (map ln mean))) /\
    (forall (XR : list (list R)) (normalized : bool),
        X = lift2 (length mean) XR ->
        KL.pdf self X normalized
        = lift (map (fun x => exp (Rdot x (map ln mean))) XR)).
Proof.
  intros mean X Hpos self. unfold self, KL.pdf. simpl.
  rewrite (np_log_lift mean Hpos).
  split; [reflexivity | split; [reflexivity |]].
  intros XR _ ->. unfold mat_vec, lift2. simpl.
  unfold lift at 3. rewrite !map_map.
  apply map_ext. intros x. rewrite vdot_lift. reflexivity.
Qed.

Lemma KL_pdf_ignores_normalized_witness :
  let self := KL.mk (lift [/ 2; / 2]) in
  let X := lift2 2 [[1; 0]] in
  KL.pdf self X true = KL.pdf self X false /\
  KL.pdf self X true = map np_exp (mat_vec X (lift (map ln [/ 2; / 2]))) /\
  (forall (XR : list (list R)) (normalized : bool),
      X = lift2 (length [/ 2; / 2]) XR ->
      KL.pdf self X normalized
      = lift (map (fun x => exp (Rdot x (map ln [/ 2; / 2]))) XR)).
Proof.
  apply (KL_pdf_ignores_normalized [/ 2; / 2] (lift2 2 [[1; 0]])).
  repeat constructor; lra.
Defined.

(** For [Gaussian] the flag matters: the normalized density is the
    unnormalized one times [1 / sqrt((2π)^d · det(cov))]. *)
Lemma Gaussian_pdf_normalized
    (det : ndarray2 -> float64) (inv : ndarray2 -> result ndarray2)
    (self : Gaussian.t) (X : ndarray2) :
  Gaussian.pdf det inv self X true
  = v <- Gaussian.pdf det inv self X false ;;
    Ok (vscale (fdiv (Fin 1)
                  (np_sqrt (fmul (fpow (fmul (Fin 2) np_pi)
                                       (length (Gaussian.mean self)))
                                 (det (Gaussian.cov self)))))
               v).
Proof.
  unfold Gaussian.pdf.
  destruct (Gaussian.mahalanobis inv self _); reflexivity.
Qed.

(** ** KL.online_max_likelihood on fresh statistics *)

Lemma vdot_zeros_l (K : nat) (phi : vec) :
  finite_vec phi -> vdot (np_zeros K) phi = Fin 0.
Proof.
  intros Hphi. revert K.
  induction Hphi as [| a phi Ha _ IH]; intros [| K]; try reflexivity.
  unfold vdot, np_zeros in *. simpl. rewrite IH.
  destruct a; simpl in *; try contradiction.
  f_equal. lra.
Qed.

Lemma fdiv_0_not_finite (a : float64) : ~ finite (fdiv a (Fin 0)).
Proof.
  destruct a as [r | | |]; simpl; auto.
  - destruct (Req_dec_T 0 0) as [_ | Hne]; [| lra].
    destruct (Rsign r); simpl; auto.
  - destruct (Req_dec_T 0 0) as [_ | Hne]; [auto | lra].
  - destruct (Req_dec_T 0 0) as [_ | Hne]; [auto | lra].
Qed.

Lemma vdivs_0_not_prob (v : vec) : ~ prob_vector (vdivs v (Fin 0)).
Proof.
  intros [Hnn Hsum]. destruct v as [| a v]; simpl in *.
  - injection Hsum as H. lra.
  - inversion Hnn as [| ? ? Ha _]; subst.
    apply (fdiv_0_not_finite a). apply fnonneg_finite. exact Ha.
Qed.

Lemma init_rho0 (x : vec) (cluster_id K size : nat) (st : KLSufficientStatistics.t) :
  KLSufficientStatistics.__init__ x cluster_id K size = Ok st ->
  KLSufficientStatistics.rho0 st = np_zeros K.
Proof.
  unfold KLSufficientStatistics.__init__.
  destruct (set_col cluster_id (np_zeros2 size K) x); simpl; [| discriminate].
  intros H. injection H as <-. reflexivity.
Qed.

(** C9.  On statistics fresh from the constructor (or from
    [new_sufficient_statistics]) the denominator [rho0.dot(phi)] is exactly
    0 for every finite [phi], so [online_max_likelihood] divides every entry
    by 0: no entry of the new mean is finite, and the new mean is not a
    probability vector. *)
Theorem KL_online_max_likelihood_fresh :
  forall (self : KL.t) (x : vec) (cluster_id K size : nat)
         (st : KLSufficientStatistics.t) (phi : vec),
    (KLSufficientStatistics.__init__ x cluster_id K size = Ok st \/
     KL.new_sufficient_statistics self x cluster_id K = Ok st) ->
    length phi = K ->
    finite_vec phi ->
    let self' := KL.online_max_likelihood self st phi in
    vdot (KLSufficientStatistics.rho0 st) phi = Fin 0 /\
    KL.mean self'
      = vdivs (mat_vec (KLSufficientStatistics.rho st) phi) (Fin 0) /\
    Forall (fun a => ~ finite a) (KL.mean self') /\
    ~ prob_vector (KL.mean self').
Proof.
  intros self x cid K size st phi Hinit _ Hphi self'.
  assert (Hrho0 : KLSufficientStatistics.rho0 st = np_zeros K).
  { destruct Hinit as [H | H]; [| unfold KL.new_sufficient_statistics in H];
      eapply init_rho0; exact H. }
  assert (Hden : vdot (KLSufficientStatistics.rho0 st) phi = Fin 0).
  { rewrite Hrho0. apply vdot_zeros_l. exact Hphi. }
  assert (Hmean : KL.mean self'
            = vdivs (mat_vec (KLSufficientStatistics.rho st) phi) (Fin 0)).
  { unfold self', KL.online_max_likelihood. simpl. rewrite Hden. reflexivity. }
  split; [exact Hden | split; [exact Hmean | split]].
  - rewrite Hmean. unfold vdivs. apply Forall_map.
    apply Forall_forall. intros a _. apply fdiv_0_not_finite.
  - rewrite Hmean. apply vdivs_0_not_prob.
Qed.

Lemma KL_online_max_likelihood_fresh_witness :
  let self := KL.mk (lift [/ 2; / 2]) in
  let st := KLSufficientStatistics.mk 0 2 (np_zeros 2)
              (mk2d 2 [[Fin 1; Fin 0]; [Fin 0; Fin 0]]) in
  let phi := lift [/ 2; / 2] in
  let self' := KL.online_max_likelihood self st phi in
  vdot (KLSufficientStatistics.rho0 st) phi = Fin 0 /\
  KL.mean self'
    = vdivs (mat_vec (KLSufficientStatistics.rho st) phi) (Fin 0) /\
  Forall (fun a => ~ finite a) (KL.mean self') /\
  ~ prob_vector (KL.mean self').
Proof.
  apply (KL_online_max_likelihood_fresh (KL.mk (lift [/ 2; / 2]))
           [Fin 1; Fin 0] 0 2 2).
  - left. reflexivity.
  - reflexivity.
  - apply lift_finite.
Defined.

(** ** max_likelihood with all-zero weights *)

Lemma map_const {A B : Type} (f : A -> B) (c : B) (l : list A) :
  (forall a, In a l -> f a = c) -> map f l = repeat c (length l).
Proof.
  induction l as [| a l IH]; intros H; simpl; [reflexivity |].
  rewrite (H a) by (left; reflexivity).
  f_equal. apply IH. intros b Hb. apply H. right. exact Hb.
Qed.

Lemma nth_repeat_lt {A : Type} (c d : A) (n j : nat) :
  (j < n)%nat -> nth j (repeat c n) d = c.
Proof.
  revert j. induction n as [| n IH]; intros [| j] H; simpl; try lia.
  - reflexivity.
  - apply IH. lia.
Qed.

Lemma all_zero_sum (w : vec) : all_zero w -> np_sum w = Fin 0.
Proof.
  unfold np_sum.
  induction 1 as [| a w -> _ IH]; simpl; [reflexivity |].
  rewrite IH. simpl. f_equal. lra.
Qed.

Lemma np_sum_zero_or_nan (v : vec) :
  Forall zero_or_nan v -> zero_or_nan (np_sum v).
Proof.
  induction 1 as [| a v Ha _ IH]; simpl.
  - left. reflexivity.
  - apply fadd_zero_or_nan; assumption.
Qed.

Lemma vadd_zero_or_nan (a b : vec) :
  Forall zero_or_nan a -> Forall zero_or_nan b -> Forall zero_or_nan (vadd a b).
Proof.
  intros Ha. revert b. unfold vadd.
  induction Ha as [| x a Hx _ IH]; intros b Hb; simpl; [constructor |].
  destruct Hb as [| y b Hy Hb]; constructor.
  - apply fadd_zero_or_nan; assumption.
  - apply IH. exact Hb.
Qed.

Lemma vadd_length (a b : vec) :
  length a = length b -> length (vadd a b) = length b.
Proof. intros H. unfold vadd. rewrite zip_with_length; assumption. Qed.

Lemma zeros_zero_or_nan (n : nat) : Forall zero_or_nan (np_zeros n).
Proof.
  unfold np_zeros. induction n; simpl; constructor; auto. left. reflexivity.
Qed.

(** The sum of rows of equal length has that length. *)
Lemma fold_vadd_length (D : nat) (l : list vec) :
  Forall (fun r => length r = D) l ->
  length (fold_right vadd (np_zeros D) l) = D.
Proof.
  induction 1 as [| r l Hr _ IH]; simpl.
  - apply np_zeros_length.
  - rewrite vadd_length; congruence.
Qed.

Lemma fold_vadd_zero_or_nan (D : nat) (l : list vec) :
  Forall (Forall zero_or_nan) l ->
  Forall zero_or_nan (fold_right vadd (np_zeros D) l).
Proof.
  induction 1 as [| r l Hr _ IH]; simpl.
  - apply zeros_zero_or_nan.
  - apply vadd_zero_or_nan; assumption.
Qed.

Lemma vscale_length (c : float64) (v : vec) : length (vscale c v) = length v.
Proof. apply length_map. Qed.

(** Rows scaled by zero weights hold only [0] and [nan]. *)
Lemma scale_rows_zero (w : vec) (l : list vec) (D : nat) :
  all_zero w -> length w = length l -> Forall (fun r => length r = D) l ->
  Forall (Forall zero_or_nan) (zip_with vscale w l) /\
  Forall (fun r => length r = D) (zip_with vscale w l).
Proof.
  intros Hw. revert l.
  induction Hw as [| a w -> _ IH]; intros [| r l] Hlen Hwf; simpl in *;
    try discriminate; try (split; constructor).
  - apply Forall_map. apply Forall_forall. intros x _. apply fmul_0_l.
  - apply IH; [lia | inversion Hwf; assumption].
  - rewrite vscale_length. inversion Hwf; assumption.
  - apply IH; [lia | inversion Hwf; assumption].
Qed.

Lemma vdivs_zero_or_nan (v : vec) :
  Forall zero_or_nan v -> vdivs v (Fin 0) = repeat NaN (length v).
Proof.
  intros H. unfold vdivs. apply map_const.
  intros a Ha. apply fdiv_zero_or_nan_0.
  rewrite Forall_forall in H. apply H. exact Ha.
Qed.

(** The weighted mean under zero weights is [nan] in every coordinate. *)
Lemma weighted_mean_zero (X : ndarray2) (N D : nat) (w : vec) :
  has_shape N D X -> length w = N -> all_zero w ->
  weighted_mean X w = repeat NaN D.
Proof.
  intros (H0 & H1 & Hwf) Hlen Hw. unfold weighted_mean.
  rewrite (all_zero_sum w Hw).
  unfold shape0 in H0. unfold wf2d in Hwf. rewrite H1 in Hwf.
  destruct (scale_rows_zero w (rows X) D Hw) as [Hzn Hl]; [lia | exact Hwf |].
  unfold sum_axis0, scale_rows. simpl. rewrite H1.
  rewrite vdivs_zero_or_nan by (apply fold_vadd_zero_or_nan; exact Hzn).
  rewrite fold_vadd_length by exact Hl. reflexivity.
Qed.

Lemma select_all_false {A : Type} (mask : list bool) (l : list A) :
  all_zero (map of_bool mask) -> select mask l = [].
Proof.
  revert l. induction mask as [| b mask IH]; intros l H; [reflexivity |].
  destruct l as [| a l]; [reflexivity |].
  inversion H as [| ? ? Hb Hrest]; subst.
  destruct b; simpl in *.
  - injection Hb as Hb. lra.
  - apply IH. exact Hrest.
Qed.

(** So is the mean of the rows an all-False mask selects. *)
Lemma mask_mean_zero (X : ndarray2) (D : nat) (mask : list bool) :
  shape1 X = D -> all_zero (map of_bool mask) ->
  mean_axis0 (select_rows mask X) = repeat NaN D.
Proof.
  intros H1 Hm. unfold mean_axis0, select_rows, sum_axis0, shape0. simpl.
  rewrite (select_all_false mask (rows X) Hm). simpl.
  rewrite vdivs_zero_or_nan by apply zeros_zero_or_nan.
  rewrite np_zeros_length. congruence.
Qed.

Lemma vsub_nan (r : vec) (D : nat) :
  length r = D -> vsub r (repeat NaN D) = repeat NaN D.
Proof.
  intros <-. unfold vsub. induction r as [| a r IH]; simpl; [reflexivity |].
  rewrite fsub_nan_r. f_equal. exact IH.
Qed.

(** [X - mean] for a mean of [nan]s. *)
Lemma sub_rows_nan (X : ndarray2) (N D : nat) :
  has_shape N D X ->
  sub_rows X (repeat NaN D) = mk2d D (repeat (repeat NaN D) N).
Proof.
  intros (H0 & H1 & Hwf). unfold sub_rows. rewrite H1. f_equal.
  rewrite <- H0. unfold shape0. apply map_const.
  intros r Hr. apply vsub_nan.
  unfold wf2d in Hwf. rewrite Forall_forall in Hwf.
  rewrite <- H1. apply Hwf. exact Hr.
Qed.

Lemma vscale_nan (c : float64) (D : nat) :
  vscale c (repeat NaN D) = repeat NaN D.
Proof.
  unfold vscale. induction D as [| D IH]; simpl; [reflexivity |].
  rewrite fmul_nan_r. f_equal. exact IH.
Qed.

Lemma scale_rows_nan (w : vec) (N D : nat) :
  length w = N ->
  zip_with vscale w (repeat (repeat NaN D) N) = repeat (repeat NaN D) N.
Proof.
  intros <-. induction w as [| a w IH]; simpl; [reflexivity |].
  rewrite vscale_nan. f_equal. exact IH.
Qed.

Lemma vmul_nan_l (n : nat) (b : vec) :
  Forall zero_or_nan (vmul (repeat NaN n) b).
Proof.
  unfold vmul. revert b.
  induction n as [| n IH]; intros [| y b]; simpl; constructor.
  - right. reflexivity.
  - apply IH.
Qed.

Lemma vmul_zero_or_nan_l (a b : vec) :
  Forall zero_or_nan a -> Forall zero_or_nan (vmul a b).
Proof.
  intros Ha. revert b. unfold vmul.
  induction Ha as [| x a Hx _ IH]; intros [| y b]; simpl; constructor.
  - apply fmul_zero_l_any. exact Hx.
  - apply IH.
Qed.

(** The covariance numerator of an all-[nan] difference, divided by 0. *)
Lemma cov_nan (w : vec) (N D : nat) :
  length w = N ->
  let diff := mk2d D (repeat (repeat NaN D) N) in
  mdivs (mat_mat (transpose diff) (scale_rows w diff)) (Fin 0)
  = mk2d D (repeat (repeat NaN D) D).
Proof.
  intros Hlen diff. unfold mdivs, mat_mat, transpose, scale_rows, diff, shape0.
  simpl. f_equal. rewrite !map_map.
  rewrite (map_const _ (repeat NaN D)); [rewrite length_seq; reflexivity |].
  intros j _. unfold vec_mat. simpl.
  unfold vdivs. rewrite map_map.
  rewrite (map_const _ NaN); [rewrite length_seq; reflexivity |].
  intros k _. apply fdiv_zero_or_nan_0. unfold vdot.
  apply np_sum_zero_or_nan. apply vmul_zero_or_nan_l.
  unfold col. simpl. apply Forall_map. apply Forall_forall.
  intros r Hr. apply repeat_spec in Hr. subst r.
  destruct (Nat.lt_ge_cases j D) as [Hj | Hj].
  - right. apply nth_repeat_lt. exact Hj.
  - left. apply nth_overflow. rewrite repeat_length. exact Hj.
Qed.

(** The squared distances to a mean of [nan]s hold only [0] and [nan]. *)
Lemma dists_nan (N D : nat) :
  Forall zero_or_nan
    (sum_axis1 (msquare (mk2d D (repeat (repeat NaN D) N)))).
Proof.
  unfold sum_axis1, msquare. simpl. rewrite map_map.
  apply Forall_map. apply Forall_forall. intros r Hr.
  apply repeat_spec in Hr. subst r.
  apply np_sum_zero_or_nan. apply vmul_nan_l.
Qed.

Lemma sigma2_nan (N D : nat) (w : vec) :
  all_zero w ->
  fdiv (fmul (Fin 0.5)
          (vdot (sum_axis1 (msquare (mk2d D (repeat (repeat NaN D) N)))) w))
       (np_sum w) = NaN.
Proof.
  intros Hw. rewrite (all_zero_sum w Hw).
  apply fdiv_zero_or_nan_0. apply fmul_zero_or_nan_r; [exact I |].
  apply np_sum_zero_or_nan. apply vmul_zero_or_nan_l. apply dists_nan.
Qed.

(** C2 (as the code has it).  With all-zero weights (numbers, or an
    all-False mask) [max_likelihood] raises nothing on an N×D batch: the
    division by [Σ w = 0] leaves [nan] in every entry of [mean], in every
    entry of the Gaussian [cov], and in [sigma2] when it was set. *)
Theorem max_likelihood_zero_weights :
  forall (X : ndarray2) (N D : nat) (w : weights),
    has_shape N D X ->
    length (as_vec w) = N ->
    all_zero (as_vec w) ->
    (forall g : Gaussian.t,
        Gaussian.max_likelihood g X w
        = Ok (Gaussian.mk (repeat NaN D) (mk2d D (repeat (repeat NaN D) D)))) /\
    (forall sd : SquareDistance.t,
        SquareDistance.max_likelihood sd X w
        = Ok (SquareDistance.mk (repeat NaN D)
                (match SquareDistance.sigma2 sd with
                 | Some _ => Some NaN
                 | None => None
                 end))).
Proof.
  intros X N D w HX Hlen Hw.
  assert (Hmean : weighted_mean X (as_vec w) = repeat NaN D)
    by (apply (weighted_mean_zero X N D); assumption).
  split.
  - intros g. unfold Gaussian.max_likelihood.
    rewrite Hmean, (sub_rows_nan X N D HX), (all_zero_sum _ Hw).
    rewrite (cov_nan _ N D Hlen). reflexivity.
  - intros sd. unfold SquareDistance.max_likelihood.
    assert (Hm : match w with
                 | WBool mask => mean_axis0 (select_rows mask X)
                 | WFloat v => weighted_mean X v
                 end = repeat NaN D).
    { destruct w as [mask | v]; [| exact Hmean].
      apply mask_mean_zero; [apply HX | exact Hw]. }
    rewrite Hm, (sub_rows_nan X N D HX).
    destruct (SquareDistance.sigma2 sd); [| reflexivity].
    rewrite (sigma2_nan N D _ Hw). reflexivity.
Qed.

Lemma max_likelihood_zero_weights_witness :
  let X := lift2 2 [[1; 2]; [3; 4]] in
  let w := WFloat [Fin 0; Fin 0] in
  (forall g : Gaussian.t,
      Gaussian.max_likelihood g X w
      = Ok (Gaussian.mk (repeat NaN 2) (mk2d 2 (repeat (repeat NaN 2) 2)))) /\
  (forall sd : SquareDistance.t,
      SquareDistance.max_likelihood sd X w
      = Ok (SquareDistance.mk (repeat NaN 2)
              (match SquareDistance.sigma2 sd with
               | Some _ => Some NaN
               | None => None
               end))).
Proof.
  apply (max_likelihood_zero_weights (lift2 2 [[1; 2]; [3; 4]]) 2 2
           (WFloat [Fin 0; Fin 0])).
  - repeat split. repeat constructor.
  - reflexivity.
  - repeat constructor.
Defined.

Lemma fdiv_0_0 (a b : R) : a = 0 -> b = 0 -> fdiv (Fin a) (Fin b) = NaN.
Proof. intros -> ->. apply fdiv_zero_or_nan_0. left. reflexivity. Qed.

(** C2 (the claim as stated fails).  On the batch ((1, 2), (3, 4)) with
    weights (0, 0), neither [Gaussian.max_likelihood] nor
    [SquareDistance.max_likelihood] raises: both return, and the parameters
    they store are [nan]. *)
Lemma max_likelihood_zero_weights_returns :
  let X := lift2 2 [[1; 2]; [3; 4]] in
  let w := WFloat [Fin 0; Fin 0] in
  let g := Gaussian.mk (lift [0; 0]) (np_eye 2) in
  let sd := SquareDistance.mk (lift [0; 0]) (Some (Fin 1)) in
  all_zero (as_vec w) /\
  Gaussian.max_likelihood g X w
  = Ok (Gaussian.mk [NaN; NaN] (mk2d 2 [[NaN; NaN]; [NaN; NaN]])) /\
  SquareDistance.max_likelihood sd X w
  = Ok (SquareDistance.mk [NaN; NaN] (Some NaN)) /\
  ~ raises (Gaussian.max_likelihood g X w) /\
  ~ raises (SquareDistance.max_likelihood sd X w).
Proof.
  cbv zeta.
  assert (HG : Gaussian.max_likelihood (Gaussian.mk (lift [0; 0]) (np_eye 2))
                 (lift2 2 [[1; 2]; [3; 4]]) (WFloat [Fin 0; Fin 0])
               = Ok (Gaussian.mk [NaN; NaN] (mk2d 2 [[NaN; NaN]; [NaN; NaN]]))).
  { unfold Gaussian.max_likelihood, weighted_mean, sum_axis0, scale_rows,
      lift2, lift, sub_rows, mdivs, mat_mat, transpose, vec_mat, col, vdot,
      vdivs, vscale, vmul, vsub, vadd, np_sum, np_zeros, fsub, as_vec, shape0.
    cbn [rows shape1 map zip_with fold_right repeat fmul fadd fneg length
         seq nth].
    rewrite !fdiv_0_0 by lra.
    cbn [rows shape1 map zip_with fold_right repeat fmul fadd fneg length
         seq nth fdiv].
    reflexivity. }
  assert (HS : SquareDistance.max_likelihood
                 (SquareDistance.mk (lift [0; 0]) (Some (Fin 1)))
                 (lift2 2 [[1; 2]; [3; 4]]) (WFloat [Fin 0; Fin 0])
               = Ok (SquareDistance.mk [NaN; NaN] (Some NaN))).
  { unfold SquareDistance.max_likelihood, weighted_mean, sum_axis0, scale_rows,
      lift2, lift, sub_rows, sum_axis1, msquare, vdot,
      vdivs, vscale, vmul, vsub, vadd, np_sum, np_zeros, fsub, as_vec.
    cbn [rows shape1 map zip_with fold_right repeat fmul fadd fneg
         SquareDistance.sigma2].
    rewrite !fdiv_0_0 by lra.
    cbn [rows shape1 map zip_with fold_right repeat fmul fadd fneg fdiv].
    reflexivity. }
  split; [forall_list; reflexivity |].
  split; [exact HG | split; [exact HS |]].
  split; intros [e He]; [rewrite HG in He | rewrite HS in He]; discriminate He.
Qed.

(** ** KLSufficientStatistics.online_update *)

Lemma vec_mat_length (v : vec) (M : ndarray2) :
  length (vec_mat v M) = shape1 M.
Proof. unfold vec_mat. rewrite length_map, length_seq. reflexivity. Qed.

(** With [cluster_id] among the columns of [r], [online_update] returns. *)
Lemma online_update_success (st : KLSufficientStatistics.t) (x : vec)
    (r : ndarray2) (step : float64) :
  (KLSufficientStatistics.cluster_id st < shape1 r)%nat ->
  KLSufficientStatistics.online_update st x r step
  = Ok (KLSufficientStatistics.mk
          (KLSufficientStatistics.cluster_id st) (KLSufficientStatistics.K st)
          (rho0_next st r step) (rho_next st x r step)).
Proof.
  intros Hcid. unfold KLSufficientStatistics.online_update, add_at, add_col.
  rewrite vscale_length, vec_mat_length. simpl.
  destruct (Nat.ltb_spec (KLSufficientStatistics.cluster_id st) (shape1 r))
    as [_ | Hge]; [| lia].
  reflexivity.
Qed.

Lemma np_sum_nonneg (v : vec) : nonneg_vec v -> fnonneg (np_sum v).
Proof.
  induction 1 as [| a v Ha _ IH]; simpl; [lra |].
  apply fadd_nonneg; assumption.
Qed.

Lemma vmul_nonneg (a b : vec) :
  nonneg_vec a -> nonneg_vec b -> nonneg_vec (vmul a b).
Proof.
  intros Ha. revert b. unfold vmul.
  induction Ha as [| x a Hx _ IH]; intros b Hb; simpl; [constructor |].
  destruct Hb as [| y b Hy Hb]; constructor.
  - apply fmul_nonneg; assumption.
  - apply IH. exact Hb.
Qed.

Lemma vdot_nonneg (a b : vec) :
  nonneg_vec a -> nonneg_vec b -> fnonneg (vdot a b).
Proof. intros Ha Hb. apply np_sum_nonneg. apply vmul_nonneg; assumption. Qed.

Lemma nth_nonneg (j : nat) (v : vec) : nonneg_vec v -> fnonneg (nth j v (Fin 0)).
Proof.
  intros Hv. revert j.
  induction Hv as [| a v Ha _ IH]; intros [| j]; simpl; try lra; auto.
Qed.

Lemma set_nth_Forall {A : Type} (P : A -> Prop) (i : nat) (l : list A) (v : A) :
  Forall P l -> P v -> Forall P (set_nth i l v).
Proof.
  intros Hl Hv. revert i.
  induction Hl as [| a l Ha Hl IH]; intros [| i]; simpl; constructor; auto.
Qed.

Lemma col_nonneg (j : nat) (M : ndarray2) : nonneg_mat M -> nonneg_vec (col j M).
Proof.
  intros HM. unfold col. apply Forall_map.
  eapply Forall_impl; [| exact HM].
  intros r Hr. apply nth_nonneg. exact Hr.
Qed.

Lemma vec_mat_nonneg (v : vec) (M : ndarray2) :
  nonneg_vec v -> nonneg_mat M -> nonneg_vec (vec_mat v M).
Proof.
  intros Hv HM. unfold vec_mat. apply Forall_map. apply Forall_forall.
  intros j _. apply vdot_nonneg; [exact Hv | apply col_nonneg; exact HM].
Qed.

Lemma vscale_nonneg (c : float64) (v : vec) :
  fnonneg c -> nonneg_vec v -> nonneg_vec (vscale c v).
Proof.
  intros Hc Hv. unfold vscale. apply Forall_map.
  eapply Forall_impl; [| exact Hv].
  intros a Ha. apply fmul_nonneg; assumption.
Qed.

Lemma one_minus_step_nonneg (s : R) : 0 < s <= 1 -> fnonneg (fsub (Fin 1) (Fin s)).
Proof. intros H. simpl. lra. Qed.

Lemma rho0_next_nonneg (st : KLSufficientStatistics.t) (r : ndarray2) (s : R) :
  nonneg_vec (KLSufficientStatistics.rho0 st) -> nonneg_mat r -> 0 < s <= 1 ->
  nonneg_vec (rho0_next st r (Fin s)).
Proof.
  intros H0 Hr Hs. unfold rho0_next.
  assert (Hv : nonneg_vec (vscale (fsub (Fin 1) (Fin s))
                 (vec_mat (KLSufficientStatistics.rho0 st) r))).
  { apply vscale_nonneg; [apply one_minus_step_nonneg; exact Hs |].
    apply vec_mat_nonneg; assumption. }
  apply set_nth_Forall; [exact Hv |].
  apply fadd_nonneg; [apply nth_nonneg; exact Hv | simpl; lra].
Qed.

Lemma zip_set_nth_nonneg (j : nat) (l : list vec) (x : vec) :
  Forall nonneg_vec l -> nonneg_vec x ->
  Forall nonneg_vec
    (zip_with (fun row xi => set_nth j row (fadd (nth j row (Fin 0)) xi)) l x).
Proof.
  intros Hl. revert x.
  induction Hl as [| r l Hr _ IH]; intros x Hx; simpl; [constructor |].
  destruct Hx as [| a x Ha Hx]; constructor.
  - apply set_nth_Forall; [exact Hr |].
    apply fadd_nonneg; [apply nth_nonneg; exact Hr | exact Ha].
  - apply IH. exact Hx.
Qed.

Lemma rho_next_nonneg (st : KLSufficientStatistics.t) (x : vec) (r : ndarray2)
    (s : R) :
  nonneg_mat (KLSufficientStatistics.rho st) -> nonneg_mat r ->
  nonneg_vec x -> 0 < s <= 1 ->
  nonneg_mat (rho_next st x r (Fin s)).
Proof.
  intros HM Hr Hx Hs. unfold rho_next, nonneg_mat. simpl.
  apply zip_set_nth_nonneg.
  - apply Forall_map. apply Forall_map.
    eapply Forall_impl; [| exact HM].
    intros row Hrow. apply vscale_nonneg.
    + apply one_minus_step_nonneg. exact Hs.
    + apply vec_mat_nonneg; assumption.
  - apply vscale_nonneg; [simpl; lra | exact Hx].
Qed.

Lemma zip_set_nth_shape (j K : nat) (l : list vec) (x : vec) :
  Forall (fun row => length row = K) l -> length x = length l ->
  Forall (fun row => length row = K)
    (zip_with (fun row xi => set_nth j row (fadd (nth j row (Fin 0)) xi)) l x) /\
  length (zip_with (fun row xi => set_nth j row (fadd (nth j row (Fin 0)) xi)) l x)
  = length l.
Proof.
  intros Hl. revert x.
  induction Hl as [| r l Hr _ IH]; intros [| a x] Hlen; simpl in *;
    try discriminate; [split; [constructor | reflexivity] |].
  destruct (IH x) as [Hw Hn]; [lia |].
  split; [constructor | f_equal; exact Hn].
  - rewrite set_nth_length. exact Hr.
  - exact Hw.
Qed.

(** The shapes of the state after a call. *)
Lemma rho_next_shape (st : KLSufficientStatistics.t) (x : vec) (r : ndarray2)
    (step : float64) :
  length x = shape0 (KLSufficientStatistics.rho st) ->
  has_shape (shape0 (KLSufficientStatistics.rho st)) (shape1 r)
            (rho_next st x r step).
Proof.
  intros Hx. unfold has_shape, wf2d, shape0, rho_next, mscale, mat_mat.
  cbn [rows shape1].
  destruct (zip_set_nth_shape (KLSufficientStatistics.cluster_id st) (shape1 r)
              (map (vscale (fsub (Fin 1) step))
                 (map (fun row => vec_mat row r)
                    (rows (KLSufficientStatistics.rho st))))
              (vscale step x)) as [Hw Hn].
  - apply Forall_map. apply Forall_map. apply Forall_forall.
    intros row _. rewrite vscale_length. apply vec_mat_length.
  - rewrite vscale_length, !length_map. exact Hx.
  - split; [| split; [reflexivity | exact Hw]].
    etransitivity; [exact Hn |]. rewrite !length_map. reflexivity.
Qed.

Lemma rho0_next_length (st : KLSufficientStatistics.t) (r : ndarray2)
    (step : float64) :
  length (rho0_next st r step) = shape1 r.
Proof.
  unfold rho0_next. rewrite set_nth_length, vscale_length.
  apply vec_mat_length.
Qed.

(** One call keeps the shapes and non-negativity. *)
Lemma online_update_nonneg_step (st : KLSufficientStatistics.t) (size : nat)
    (u : vec * ndarray2 * float64) :
  wf_stats st -> shape0 (KLSufficientStatistics.rho st) = size ->
  nonneg_stats st ->
  valid_update (KLSufficientStatistics.K st) size u ->
  let '(x, r, step) := u in
  exists st',
    KLSufficientStatistics.online_update st x r step = Ok st' /\
    KLSufficientStatistics.K st' = KLSufficientStatistics.K st /\
    wf_stats st' /\ shape0 (KLSufficientStatistics.rho st') = size /\
    nonneg_stats st'.
Proof.
  intros (Hl0 & Hs1 & Hwf & Hcid) Hsize [Hn0 Hn] Hu.
  destruct u as [[x r] step].
  destruct Hu as (Hx & Hxn & (Hr0 & Hr1 & Hrwf) & Hrn & s & -> & Hs).
  eexists. split.
  - apply online_update_success. rewrite Hr1. exact Hcid.
  - simpl.
    destruct (rho_next_shape st x r (Fin s)) as (Hsh0 & Hsh1 & Hshwf);
      [congruence |].
    split; [reflexivity | split; [| split; [| split]]].
    + unfold wf_stats. simpl. rewrite rho0_next_length.
      repeat split; auto; congruence.
    + congruence.
    + apply rho0_next_nonneg; assumption.
    + apply rho_next_nonneg; assumption.
Qed.



(** ** SquareDistance.max_likelihood and the sign of sigma2 *)

Lemma vscale_finite (c : float64) (v : vec) :
  finite c -> finite_vec v -> finite_vec (vscale c v).
Proof.
  intros Hc Hv. unfold vscale. apply Forall_map.
  eapply Forall_impl; [| exact Hv].
  intros a Ha. apply fmul_finite; assumption.
Qed.

Lemma vadd_finite (a b : vec) :
  finite_vec a -> finite_vec b -> finite_vec (vadd a b).
Proof.
  intros Ha. revert b. unfold vadd.
  induction Ha as [| x a Hx _ IH]; intros b Hb; simpl; [constructor |].
  destruct Hb as [| y b Hy Hb]; constructor.
  - apply fadd_finite; assumption.
  - apply IH. exact Hb.
Qed.

Lemma vsub_finite (a b : vec) :
  finite_vec a -> finite_vec b -> finite_vec (vsub a b).
Proof.
  intros Ha. revert b. unfold vsub.
  induction Ha as [| x a Hx _ IH]; intros b Hb; simpl; [constructor |].
  destruct Hb as [| y b Hy Hb]; constructor.
  - apply fsub_finite; assumption.
  - apply IH. exact Hb.
Qed.

Lemma zeros_finite (n : nat) : finite_vec (np_zeros n).
Proof. unfold np_zeros. induction n; simpl; constructor; simpl; auto. Qed.

Lemma fold_vadd_finite (D : nat) (l : list vec) :
  Forall finite_vec l -> finite_vec (fold_right vadd (np_zeros D) l).
Proof.
  induction 1 as [| r l Hr _ IH]; simpl.
  - apply zeros_finite.
  - apply vadd_finite; assumption.
Qed.

Lemma scale_rows_finite (w : vec) (l : list vec) :
  finite_vec w -> Forall finite_vec l -> Forall finite_vec (zip_with vscale w l).
Proof.
  intros Hw. revert l.
  induction Hw as [| a w Ha _ IH]; intros l Hl; simpl; [constructor |].
  destruct Hl as [| r l Hr Hl]; constructor.
  - apply vscale_finite; assumption.
  - apply IH. exact Hl.
Qed.

Lemma vdivs_finite (v : vec) (c : float64) :
  finite_vec v -> fpos c -> finite_vec (vdivs v c).
Proof.
  intros Hv Hc. unfold vdivs. apply Forall_map.
  eapply Forall_impl; [| exact Hv].
  intros a Ha. apply fdiv_finite; assumption.
Qed.

Lemma nonneg_finite_vec (v : vec) : nonneg_vec v -> finite_vec v.
Proof. apply Forall_impl. exact fnonneg_finite. Qed.

Lemma weighted_mean_finite (X : ndarray2) (w : vec) :
  finite_mat X -> nonneg_vec w -> fpos (np_sum w) ->
  finite_vec (weighted_mean X w).
Proof.
  intros HX Hw Hs. unfold weighted_mean. apply vdivs_finite; [| exact Hs].
  unfold sum_axis0, scale_rows. cbn [rows shape1].
  apply fold_vadd_finite. apply scale_rows_finite; [| exact HX].
  apply nonneg_finite_vec. exact Hw.
Qed.

Lemma select_Forall {A : Type} (P : A -> Prop) (mask : list bool) (l : list A) :
  Forall P l -> Forall P (select mask l).
Proof.
  intros Hl. revert mask.
  induction Hl as [| a l Ha _ IH]; intros [| [|] mask]; simpl;
    try constructor; auto.
Qed.

(** A mask with a positive count selects at least one row. *)
Lemma select_length_pos {A : Type} (mask : list bool) (l : list A) :
  length mask = length l -> fpos (np_sum (map of_bool mask)) ->
  (0 < length (select mask l))%nat.
Proof.
  revert l. induction mask as [| b mask IH]; intros [| a l] Hlen Hs;
    try discriminate Hlen; try (simpl in Hs; lra).
  destruct b; simpl; [lia |].
  apply IH; [simpl in Hlen; lia |].
  change (np_sum (map of_bool (false :: mask)))
    with (fadd (Fin 0) (np_sum (map of_bool mask))) in Hs.
  rewrite fadd_0_l in Hs. exact Hs.
Qed.

Lemma mask_mean_finite (X : ndarray2) (mask : list bool) :
  finite_mat X -> length mask = shape0 X -> fpos (np_sum (map of_bool mask)) ->
  finite_vec (mean_axis0 (select_rows mask X)).
Proof.
  intros HX Hlen Hs. unfold mean_axis0. apply vdivs_finite.
  - unfold sum_axis0, select_rows. cbn [rows shape1].
    apply fold_vadd_finite. apply select_Forall. exact HX.
  - unfold shape0, select_rows. cbn [rows]. simpl.
    apply lt_0_INR. apply select_length_pos; assumption.
Qed.

(** Squared distances to a finite mean are non-negative. *)
Lemma dists_nonneg (X : ndarray2) (m : vec) :
  finite_mat X -> finite_vec m ->
  nonneg_vec (sum_axis1 (msquare (sub_rows X m))).
Proof.
  intros HX Hm. unfold sum_axis1, msquare, sub_rows. cbn [rows].
  rewrite !map_map. apply Forall_map.
  eapply Forall_impl; [| exact HX].
  intros r Hr. apply np_sum_nonneg.
  assert (Hd : finite_vec (vsub r m)) by (apply vsub_finite; assumption).
  unfold vmul. induction Hd as [| a d Ha _ IH]; simpl; constructor.
  - apply fmul_self_nonneg. exact Ha.
  - exact IH.
Qed.


Lemma fdiv_fin (a b : R) : b <> 0 -> fdiv (Fin a) (Fin b) = Fin (a / b).
Proof.
  intros H. simpl. destruct (Req_dec_T b 0); [contradiction | reflexivity].
Qed.

(** Unfolds the array operations on explicit arrays down to real
    arithmetic; divisions are by divisors [lra] proves non-zero. *)
Ltac eval_arrays :=
  unfold weighted_mean, mean_axis0, sum_axis0, scale_rows, select_rows,
    lift2, lift, sum_axis1, msquare, sub_rows, mdivs, mscale, mat_mat,
    mat_vec, transpose, vec_mat, col, vdot, vdivs, vscale, vmul, vsub, vadd,
    np_sum, np_zeros, np_ones, np_eye, fsub, as_vec, shape0;
  repeat (cbn [rows shape1 map zip_with fold_right repeat fmul fadd fneg
               select length INR seq nth Nat.eqb];
          try rewrite !fdiv_fin by lra).



(** ** Gaussian.max_likelihood with unit weights *)

Lemma vscale_1 (v : vec) : vscale (Fin 1) v = v.
Proof.
  unfold vscale. induction v as [| a v IH]; simpl; [reflexivity |].
  rewrite IH. f_equal. apply fmul_1_l.
Qed.

Lemma scale_rows_ones (l : list vec) :
  zip_with vscale (np_ones (length l)) l = l.
Proof.
  unfold np_ones. induction l as [| r l IH]; [reflexivity |].
  cbn [length repeat zip_with]. rewrite vscale_1, IH. reflexivity.
Qed.

Lemma np_sum_ones (N : nat) : np_sum (np_ones N) = Fin (INR N).
Proof.
  unfold np_sum, np_ones. induction N as [| N IH]; [reflexivity |].
  cbn [repeat fold_right]. rewrite IH, S_INR. simpl. f_equal. lra.
Qed.

Lemma map_seq_nth {A B : Type} (f : A -> B) (d : A) (l : list A) :
  map (fun i => f (nth i l d)) (seq 0 (length l)) = map f l.
Proof.
  induction l as [| a l IH]; [reflexivity |].
  cbn [length seq map nth]. f_equal.
  rewrite <- seq_shift, map_map. exact IH.
Qed.

Lemma zip_with_map {A B C D : Type} (g : B -> C -> D) (f1 : A -> B)
    (f2 : A -> C) (l : list A) :
  zip_with g (map f1 l) (map f2 l) = map (fun i => g (f1 i) (f2 i)) l.
Proof.
  induction l as [| a l IH]; [reflexivity |].
  simpl. f_equal. exact IH.
Qed.

(** The Gram matrix of the rows is the sum of their outer products. *)
Lemma gram_outer (D : nat) (l : list vec) :
  Forall (fun d => length d = D) l ->
  map (fun r => vec_mat r (mk2d D l)) (rows (transpose (mk2d D l)))
  = rows (fold_right madd (np_zeros2 D D) (map (fun d => outer d d) l)).
Proof.
  unfold transpose, vec_mat, col, shape0. cbn [rows shape1].
  rewrite map_map.
  induction 1 as [| d l Hd Hl IH].
  - cbn [map fold_right np_zeros2 rows].
    rewrite (map_const _ (np_zeros D)); [rewrite length_seq; reflexivity |].
    intros j _. unfold np_zeros.
    rewrite (map_const _ (Fin 0)); [rewrite length_seq; reflexivity |].
    reflexivity.
  - cbn [map fold_right madd rows outer]. rewrite <- IH.
    rewrite <- (map_seq_nth (fun ai => vscale ai d) (Fin 0) d).
    rewrite Hd, zip_with_map.
    apply map_ext. intros j.
    unfold vscale, vadd.
    rewrite <- (map_seq_nth (fmul (nth j d (Fin 0))) (Fin 0) d).
    rewrite Hd, zip_with_map.
    apply map_ext. intros k. reflexivity.
Qed.

Lemma fold_madd_shape1 (D : nat) (l : list ndarray2) :
  shape1 (fold_right madd (np_zeros2 D D) l) = D.
Proof. induction l as [| A l IH]; simpl; auto. Qed.

Lemma sub_rows_wf (X : ndarray2) (m : vec) (D : nat) :
  shape1 X = D -> wf2d X -> length m = D ->
  Forall (fun d => length d = D) (map (fun r => vsub r m) (rows X)).
Proof.
  intros H1 Hwf Hm. apply Forall_map. unfold wf2d in Hwf.
  eapply Forall_impl; [| exact Hwf].
  intros r Hr. simpl in Hr. unfold vsub. rewrite zip_with_length; congruence.
Qed.

(** C5.  With the all-ones weights of length N, [max_likelihood] on an
    N×D batch sets [mean] to the sample mean [Σ x_i / N] and [cov] to the
    biased sample covariance [Σ (x_i - mean)(x_i - mean)ᵗ / N]. *)
Theorem Gaussian_max_likelihood_ones :
  forall (g : Gaussian.t) (X : ndarray2) (N D : nat),
    has_shape N D X ->
    Gaussian.max_likelihood g X (WFloat (np_ones N))
    = Ok (Gaussian.mk (sample_mean X) (sample_cov X)).
Proof.
  intros g X N D (H0 & H1 & Hwf).
  unfold Gaussian.max_likelihood. cbn [as_vec].
  assert (Hmean : weighted_mean X (np_ones N) = sample_mean X).
  { unfold weighted_mean, sample_mean, sum_axis0, scale_rows.
    cbn [rows shape1]. rewrite np_sum_ones, <- H0. unfold shape0.
    rewrite scale_rows_ones. reflexivity. }
  rewrite Hmean. do 2 f_equal.
  unfold sample_cov. rewrite np_sum_ones, H0.
  set (m := sample_mean X).
  assert (Hm : length m = D).
  { unfold m, sample_mean, vdivs. rewrite length_map, H1.
    apply fold_vadd_length. unfold wf2d in Hwf. rewrite H1 in Hwf. exact Hwf. }
  assert (Hd := sub_rows_wf X m D H1 Hwf Hm).
  unfold mdivs, mat_mat, scale_rows, sub_rows. cbn [rows shape1].
  rewrite H1, fold_madd_shape1. f_equal.
  assert (Hlen : length (map (fun r => vsub r m) (rows X)) = N)
    by (rewrite length_map; exact H0).
  replace (np_ones N)
    with (np_ones (length (map (fun r => vsub r m) (rows X))))
    by (rewrite Hlen; reflexivity).
  rewrite scale_rows_ones. f_equal.
  rewrite (gram_outer D _ Hd), map_map. reflexivity.
Qed.

Lemma Gaussian_max_likelihood_ones_witness :
  Gaussian.max_likelihood (Gaussian.mk (lift [0]) (np_eye 1))
    (lift2 1 [[1]; [3]]) (WFloat (np_ones 2))
  = Ok (Gaussian.mk (sample_mean (lift2 1 [[1]; [3]]))
                    (sample_cov (lift2 1 [[1]; [3]]))).
Proof.
  apply (Gaussian_max_likelihood_ones (Gaussian.mk (lift [0]) (np_eye 1))
           (lift2 1 [[1]; [3]]) 2 1).
  repeat split. unfold wf2d. simpl. forall_list; reflexivity.
Defined.

(** The batch ((1), (3)) with unit weights: mean 2, covariance
    ((1-2)² + (3-2)²) / 2 = 1. *)
Example Gaussian_max_likelihood_two_points :
  Gaussian.max_likelihood (Gaussian.mk (lift [0]) (np_eye 1))
    (lift2 1 [[1]; [3]]) (WFloat (np_ones 2))
  = Ok (Gaussian.mk [Fin 2] (mk2d 1 [[Fin 1]])).
Proof.
  unfold Gaussian.max_likelihood. eval_arrays.
  repeat (f_equal; try field).
Qed.

(** ** Repeated online_update with the identity *)

(** One call on the statistics of the observation (1) in cluster 0 of 2,
    with the identity and step 1/2: [rho0] goes from (0, 0) to (1/2, 0). *)
Example online_update_one_step :
  KLSufficientStatistics.online_update
    (KLSufficientStatistics.mk 0 2 (np_zeros 2) (mk2d 2 [[Fin 1; Fin 0]]))
    [Fin 1] (np_eye 2) (Fin (/ 2))
  = Ok (KLSufficientStatistics.mk 0 2 [Fin (/ 2); Fin 0]
          (mk2d 2 [[Fin 1; Fin 0]])).
Proof.
  rewrite online_update_success by (simpl; lia).
  unfold rho0_next, rho_next. eval_arrays.
  cbn [KLSufficientStatistics.rho0 KLSufficientStatistics.rho
       KLSufficientStatistics.cluster_id KLSufficientStatistics.K].
  eval_arrays. cbn [set_nth].
  repeat (f_equal; try lra).
Qed.

Lemma Rdot_zeros (l : list R) (A : Type) (l' : list A) :
  Rdot l (map (fun _ => 0) l') = 0.
Proof.
  unfold Rdot. revert l'.
  induction l as [| a l IH]; intros [| b l']; simpl; try reflexivity.
  rewrite IH. lra.
Qed.

(** The dot product with column [j] of the identity picks entry [j]. *)
Lemma Rdot_delta (l : list R) (j : nat) :
  Rdot l (map (fun i => if Nat.eqb i j then 1 else 0) (seq 0 (length l)))
  = nth j l 0.
Proof.
  revert j. induction l as [| a l IH]; intros j.
  - destruct j; reflexivity.
  - cbn [length seq map]. rewrite <- seq_shift, map_map.
    destruct j as [| j].
    + cbn [Nat.eqb nth]. unfold Rdot in *. cbn [zip_with fold_right].
      fold (Rdot l (map (fun _ : nat => 0) (seq 0 (length l)))).
      rewrite Rdot_zeros. lra.
    + cbn [Nat.eqb nth]. unfold Rdot in *. cbn [zip_with fold_right].
      rewrite IH. lra.
Qed.

Lemma col_eye (K j : nat) :
  (j < K)%nat ->
  col j (np_eye K) = lift (map (fun i => if Nat.eqb i j then 1 else 0) (seq 0 K)).
Proof.
  intros Hj. unfold col, np_eye, lift. cbn [rows]. rewrite !map_map.
  apply map_ext. intros i.
  rewrite (nth_indep _ (Fin 0) ((fun j0 => if Nat.eqb i j0 then Fin 1 else Fin 0) 0%nat))
    by (rewrite length_map, length_seq; exact Hj).
  rewrite (map_nth (fun j0 => if Nat.eqb i j0 then Fin 1 else Fin 0)).
  rewrite seq_nth by exact Hj. simpl.
  destruct (Nat.eqb i j); reflexivity.
Qed.

Lemma vec_mat_eye (l : list R) :
  vec_mat (lift l) (np_eye (length l)) = lift l.
Proof.
  unfold vec_mat. cbn [np_eye shape1].
  transitivity (map (fun i => Fin (nth i l 0)) (seq 0 (length l)));
    [| apply (map_seq_nth Fin 0 l)].
  apply map_ext_in. intros j Hj. apply in_seq in Hj.
  rewrite col_eye by lia. rewrite vdot_lift, Rdot_delta. reflexivity.
Qed.

Lemma set_nth_map {A B : Type} (f : A -> B) (i : nat) (l : list A) (v : A) :
  set_nth i (map f l) (f v) = map f (set_nth i l v).
Proof.
  revert i. induction l as [| a l IH]; intros [| i]; simpl; try reflexivity.
  f_equal. apply IH.
Qed.

Lemma nth_lift (k : nat) (l : list R) : nth k (lift l) (Fin 0) = Fin (nth k l 0).
Proof. unfold lift. apply (map_nth Fin). Qed.

(** On a finite [rho0] and the identity, [online_update] performs
    [rho0_step]. *)
Lemma rho0_next_eye (st : KLSufficientStatistics.t) (l : list R) (s : R) :
  KLSufficientStatistics.rho0 st = lift l ->
  rho0_next st (np_eye (length l)) (Fin s)
  = lift (rho0_step s (KLSufficientStatistics.cluster_id st) l).
Proof.
  intros Hl. unfold rho0_next, rho0_step. rewrite Hl, vec_mat_eye.
  assert (Hv : vscale (fsub (Fin 1) (Fin s)) (lift l)
               = lift (map (Rmult (1 - s)) l)).
  { unfold vscale, lift. rewrite !map_map. reflexivity. }
  rewrite Hv, nth_lift. cbn [fadd].
  unfold lift. apply set_nth_map.
Qed.

Lemma rho0_step_length (s : R) (cid : nat) (l : list R) :
  length (rho0_step s cid l) = length l.
Proof. unfold rho0_step. rewrite set_nth_length, length_map. reflexivity. Qed.

Lemma iter_rho0_step_length (s : R) (cid n : nat) (l : list R) :
  length (Nat.iter n (rho0_step s cid) l) = length l.
Proof.
  induction n as [| n IH]; [reflexivity |].
  rewrite Nat.iter_succ, rho0_step_length. exact IH.
Qed.

(** [n] calls with the identity return, and iterate [rho0_step] on [rho0]. *)
Lemma repeat_update_eye (n : nat) :
  forall (st : KLSufficientStatistics.t) (x : vec) (l : list R) (s : R),
    KLSufficientStatistics.rho0 st = lift l ->
    length l = KLSufficientStatistics.K st ->
    (KLSufficientStatistics.cluster_id st < KLSufficientStatistics.K st)%nat ->
    exists st',
      repeat_update st x (np_eye (KLSufficientStatistics.K st)) (Fin s) n = Ok st' /\
      KLSufficientStatistics.rho0 st'
      = lift (Nat.iter n (rho0_step s (KLSufficientStatistics.cluster_id st)) l).
Proof.
  unfold repeat_update. induction n as [| n IH]; intros st x l s Hl Hlen Hcid.
  - exists st. split; [reflexivity | exact Hl].
  - cbn [repeat KLSufficientStatistics.online_updates].
    rewrite online_update_success by exact Hcid. cbn [bind].
    set (st1 := KLSufficientStatistics.mk _ _ _ _).
    destruct (IH st1 x (rho0_step s (KLSufficientStatistics.cluster_id st) l) s)
      as (st' & Hok & Hrho0).
    + unfold st1. cbn [KLSufficientStatistics.rho0].
      rewrite <- Hlen. apply rho0_next_eye. exact Hl.
    + rewrite rho0_step_length. exact Hlen.
    + exact Hcid.
    + exists st'. split; [exact Hok |].
      rewrite Hrho0. unfold st1. cbn [KLSufficientStatistics.cluster_id].
      rewrite Nat.iter_succ_r. reflexivity.
Qed.

Lemma nth_rho0_step (s : R) (cid k : nat) (l : list R) :
  (k < length l)%nat -> (cid < length l)%nat ->
  nth k (rho0_step s cid l) 0
  = (1 - s) * nth k l 0 + (if Nat.eqb k cid then s else 0).
Proof.
  intros Hk Hcid. unfold rho0_step.
  assert (Hn : forall i, (i < length l)%nat ->
                 nth i (map (Rmult (1 - s)) l) 0 = (1 - s) * nth i l 0).
  { intros i Hi.
    rewrite (nth_indep _ 0 ((1 - s) * 0)) by (rewrite length_map; exact Hi).
    apply (map_nth (Rmult (1 - s))). }
  destruct (Nat.eqb_spec k cid) as [-> | Hne].
  - rewrite nth_set_nth_same by (rewrite length_map; exact Hcid).
    rewrite Hn by exact Hcid. reflexivity.
  - rewrite nth_set_nth_other by congruence.
    rewrite Hn by exact Hk. lra.
Qed.

(** The geometric closed form of the iterates. *)
Lemma nth_iter_rho0_step (s : R) (cid k n : nat) (l : list R) :
  (k < length l)%nat -> (cid < length l)%nat ->
  nth k (Nat.iter n (rho0_step s cid) l) 0
  = (1 - s) ^ n * nth k l 0 + (if Nat.eqb k cid then 1 - (1 - s) ^ n else 0).
Proof.
  intros Hk Hcid. induction n as [| n IH].
  - simpl. destruct (Nat.eqb k cid); lra.
  - rewrite Nat.iter_succ.
    rewrite nth_rho0_step by (rewrite iter_rho0_step_length; assumption).
    rewrite IH. destruct (Nat.eqb k cid); simpl; lra.
Qed.

Lemma geometric_cv_0 (q c : R) :
  Rabs q < 1 -> Un_cv (fun n => q ^ n * c) 0.
Proof.
  intros Hq eps Heps.
  assert (Hc : 0 < Rabs c + 1) by (pose proof (Rabs_pos c); lra).
  destruct (pow_lt_1_zero q Hq (eps / (Rabs c + 1))) as [N HN].
  { apply Rdiv_lt_0_compat; assumption. }
  exists N. intros n Hn. specialize (HN n Hn).
  unfold R_dist. rewrite Rminus_0_r, Rabs_mult.
  apply Rle_lt_trans with (eps / (Rabs c + 1) * Rabs c).
  - apply Rmult_le_compat_r; [apply Rabs_pos | lra].
  - unfold Rdiv. rewrite Rmult_assoc.
    rewrite <- (Rmult_1_r eps) at 2.
    apply Rmult_lt_compat_l; [exact Heps |].
    apply Rmult_lt_reg_l with (Rabs c + 1); [exact Hc |].
    rewrite <- Rmult_assoc, Rinv_r by lra.
    pose proof (Rabs_pos c). lra.
Qed.

Lemma geometric_cv_1 (q c : R) :
  Rabs q < 1 -> Un_cv (fun n => q ^ n * c + (1 - q ^ n)) 1.
Proof.
  intros Hq eps Heps.
  destruct (geometric_cv_0 q (c - 1) Hq eps Heps) as [N HN].
  exists N. intros n Hn. specialize (HN n Hn).
  unfold R_dist in *.
  replace (q ^ n * c + (1 - q ^ n) - 1) with (q ^ n * (c - 1) - 0) by ring.
  exact HN.
Qed.


(** ** Further properties: real-valued arrays *)

Lemma vadd_lift (a b : list R) :
  vadd (lift a) (lift b) = lift (zip_with Rplus a b).
Proof.
  unfold vadd, lift.
  revert b. induction a as [| x a IH]; intros [| y b]; simpl; try reflexivity.
  f_equal. apply IH.
Qed.

Lemma vsub_lift (a b : list R) :
  vsub (lift a) (lift b) = lift (zip_with Rminus a b).
Proof.
  unfold vsub, lift.
  revert b. induction a as [| x a IH]; intros [| y b]; simpl; try reflexivity.
  f_equal. apply IH.
Qed.

Lemma vscale_lift (c : R) (a : list R) :
  vscale (Fin c) (lift a) = lift (map (Rmult c) a).
Proof. unfold vscale, lift. rewrite !map_map. reflexivity. Qed.

Lemma vdivs_lift (a : list R) (c : R) :
  c <> 0 -> vdivs (lift a) (Fin c) = lift (map (fun x => x / c) a).
Proof.
  intros Hc. unfold vdivs, lift. rewrite !map_map.
  apply map_ext. intros x. apply fdiv_fin. exact Hc.
Qed.

Lemma lift_length (l : list R) : length (lift l) = length l.
Proof. apply length_map. Qed.

Lemma lift_inj (a b : list R) : lift a = lift b -> a = b.
Proof.
  unfold lift. revert b.
  induction a as [| x a IH]; intros [| y b] H; simpl in H;
    try discriminate; [reflexivity |].
  injection H as Hx Hab. f_equal; [exact Hx | apply IH; exact Hab].
Qed.

Lemma finite_mat_lift (X : ndarray2) :
  finite_mat X -> exists XR, rows X = map lift XR.
Proof.
  unfold finite_mat. induction 1 as [| r l Hr _ [XR ->]].
  - exists []. reflexivity.
  - destruct (finite_vec_lift r Hr) as [a ->].
    exists (a :: XR). reflexivity.
Qed.

Lemma zip_with_length_min {A B C : Type} (f : A -> B -> C) (l : list A)
    (l' : list B) :
  length (zip_with f l l') = Nat.min (length l) (length l').
Proof.
  revert l'. induction l as [| a l IH]; intros [| b l']; simpl; auto.
Qed.

(** ** SquareDistance.distances *)

Lemma Rdot_self_nonneg (l : list R) : 0 <= Rdot l l.
Proof.
  unfold Rdot. induction l as [| a l IH]; simpl; [lra |]. nra.
Qed.

Lemma Rdot_diff_zero (a b : list R) :
  length a = length b ->
  (Rdot (zip_with Rminus a b) (zip_with Rminus a b) = 0 <-> a = b).
Proof.
  revert b. induction a as [| x a IH]; intros [| y b] Hlen;
    simpl in Hlen; try discriminate.
  - split; reflexivity.
  - specialize (IH b (eq_add_S _ _ Hlen)).
    pose proof (Rdot_self_nonneg (zip_with Rminus a b)) as Hnn.
    unfold Rdot in *. simpl. split.
    + intros H.
      assert (Hx : x = y) by nra.
      assert (Hr : fold_right Rplus 0
                     (zip_with Rmult (zip_with Rminus a b) (zip_with Rminus a b))
                   = 0) by nra.
      f_equal; [exact Hx | apply IH; exact Hr].
    + intros H. injection H as -> Hab.
      apply IH in Hab. rewrite Hab. lra.
Qed.

(** The squared distance of one row to the mean, in real numbers. *)
Lemma row_distance_lift (x m : list R) :
  np_sum (vmul (vsub (lift x) (lift m)) (vsub (lift x) (lift m)))
  = Fin (Rdot (zip_with Rminus x m) (zip_with Rminus x m)).
Proof. rewrite vsub_lift, vmul_lift. apply np_sum_lift. Qed.

(** The squared distance of row [i] is 0 exactly when the row is the mean. *)
Lemma row_distance_zero_iff (X : ndarray2) (N D : nat) (m : vec) (i : nat) :
  has_shape N D X -> finite_mat X -> finite_vec m -> length m = D ->
  (i < N)%nat ->
  (nth i (sum_axis1 (msquare (sub_rows X m))) (Fin 0) = Fin 0
   <-> nth i (rows X) [] = m).
Proof.
  intros (H0 & H1 & Hwf) HX Hm HD Hi.
  unfold sum_axis1, msquare, sub_rows. cbn [rows]. rewrite !map_map.
  set (f := fun r : vec => np_sum (vmul (vsub r m) (vsub r m))).
  change (Fin 0) with (f []) at 1. rewrite map_nth.
  assert (Hin : In (nth i (rows X) []) (rows X))
    by (apply nth_In; unfold shape0 in H0; lia).
  unfold finite_mat in HX. rewrite Forall_forall in HX.
  unfold wf2d in Hwf. rewrite Forall_forall in Hwf.
  destruct (finite_vec_lift _ (HX _ Hin)) as [x Hx].
  destruct (finite_vec_lift _ Hm) as [mr Hmm].
  pose proof (Hwf _ Hin) as Hlen.
  unfold f. rewrite Hx, Hmm in *. rewrite row_distance_lift.
  rewrite !lift_length in *.
  split.
  - intros H. injection H as H. f_equal.
    apply Rdot_diff_zero; [congruence | exact H].
  - intros H. apply lift_inj in H. f_equal.
    apply Rdot_diff_zero; [congruence | exact H].
Qed.



(** ** The boolean-mask branch of max_likelihood *)

Lemma zip_vscale_wf (D : nat) (w : vec) (l : list vec) :
  Forall (fun r => length r = D) l ->
  Forall (fun r => length r = D) (zip_with vscale w l).
Proof.
  intros Hl. revert w.
  induction Hl as [| r l Hr _ IH]; intros [| a w]; simpl; constructor.
  - rewrite vscale_length. exact Hr.
  - apply IH.
Qed.

Lemma vscale_0_finite (r : vec) :
  finite_vec r -> vscale (Fin 0) r = np_zeros (length r).
Proof.
  unfold vscale, np_zeros. induction 1 as [| a r Ha _ IH]; simpl; [reflexivity |].
  rewrite IH. destruct a; simpl in *; try contradiction.
  do 2 f_equal. lra.
Qed.

Lemma vadd_zeros_l (v : vec) : vadd (np_zeros (length v)) v = v.
Proof.
  unfold vadd, np_zeros. induction v as [| a v IH]; [reflexivity |].
  cbn [length repeat zip_with]. rewrite IH, fadd_0_l. reflexivity.
Qed.

(** The number of selected rows is the sum of the mask read as 0/1. *)
Lemma mask_count {A : Type} (mask : list bool) (l : list A) :
  length mask = length l ->
  np_sum (map of_bool mask) = Fin (INR (length (select mask l))).
Proof.
  unfold np_sum. revert l.
  induction mask as [| b mask IH]; intros [| a l] Hlen;
    simpl in Hlen; try discriminate; [reflexivity |].
  cbn [map fold_right]. rewrite (IH l) by lia.
  destruct b; cbn [of_bool select length].
  - rewrite S_INR. simpl. f_equal. lra.
  - apply fadd_0_l.
Qed.

(** The sum of the selected rows is the sum of all rows weighted 0/1. *)
Lemma mask_sum (D : nat) (mask : list bool) (l : list vec) :
  Forall finite_vec l -> Forall (fun r => length r = D) l ->
  fold_right vadd (np_zeros D) (zip_with vscale (map of_bool mask) l)
  = fold_right vadd (np_zeros D) (select mask l).
Proof.
  intros Hfin. revert mask.
  induction Hfin as [| r l Hr _ IH]; intros [| b mask] Hwf;
    try reflexivity.
  inversion Hwf as [| ? ? Hlr Hwf']; subst.
  cbn [map zip_with fold_right]. rewrite (IH mask Hwf').
  destruct b; cbn [of_bool select fold_right].
  - rewrite vscale_1. reflexivity.
  - rewrite vscale_0_finite by exact Hr.
    rewrite <- (fold_vadd_length (length r) (select mask l)) at 1.
    + apply vadd_zeros_l.
    + apply select_Forall. exact Hwf'.
Qed.

Lemma mask_mean_as_weights (X : ndarray2) (N D : nat) (mask : list bool) :
  has_shape N D X -> finite_mat X -> length mask = N ->
  mean_axis0 (select_rows mask X) = weighted_mean X (map of_bool mask).
Proof.
  intros (H0 & H1 & Hwf) HX Hlen.
  unfold mean_axis0, weighted_mean, sum_axis0, select_rows, scale_rows, shape0.
  cbn [rows shape1]. unfold wf2d in Hwf. rewrite H1 in *.
  rewrite (mask_sum D mask (rows X) HX Hwf).
  rewrite (mask_count mask (rows X)) by (unfold shape0 in H0; congruence).
  reflexivity.
Qed.

(** X2.  On a finite N×D batch, a boolean mask of length N and the same
    mask written as numbers (1 for True, 0 for False) give the same
    result, for [SquareDistance.max_likelihood] and for
    [KL.max_likelihood]: the mask branch agrees with the weighted one. *)
Theorem max_likelihood_mask_as_weights :
  forall (X : ndarray2) (N D : nat) (mask : list bool),
    has_shape N D X ->
    finite_mat X ->
    length mask = N ->
    (forall sd : SquareDistance.t,
        SquareDistance.max_likelihood sd X (WBool mask)
        = SquareDistance.max_likelihood sd X (WFloat (map of_bool mask))) /\
    (forall kl : KL.t,
        KL.max_likelihood kl X (WBool mask)
        = KL.max_likelihood kl X (WFloat (map of_bool mask))).
Proof.
  intros X N D mask HX Hfin Hlen.
  pose proof (mask_mean_as_weights X N D mask HX Hfin Hlen) as Hmean.
  split.
  - intros sd. unfold SquareDistance.max_likelihood. cbn [as_vec].
    rewrite Hmean. reflexivity.
  - intros kl. unfold KL.max_likelihood. rewrite Hmean. reflexivity.
Qed.

Lemma max_likelihood_mask_as_weights_witness :
  let X := lift2 2 [[1; 2]; [3; 4]; [5; 6]] in
  let mask := [true; false; true] in
  (forall sd : SquareDistance.t,
      SquareDistance.max_likelihood sd X (WBool mask)
      = SquareDistance.max_likelihood sd X (WFloat (map of_bool mask))) /\
  (forall kl : KL.t,
      KL.max_likelihood kl X (WBool mask)
      = KL.max_likelihood kl X (WFloat (map of_bool mask))).
Proof.
  apply (max_likelihood_mask_as_weights
           (lift2 2 [[1; 2]; [3; 4]; [5; 6]]) 3 2 [true; false; true]).
  - repeat split. unfold wf2d. simpl. forall_list; reflexivity.
  - unfold finite_mat, finite_vec. simpl. forall_list; exact I.
  - reflexivity.
Defined.

(** ** KL.online_update *)

Lemma nonneg_vec_lift (l : list R) :
  nonneg_vec (lift l) <-> Forall (fun a => 0 <= a) l.
Proof.
  unfold nonneg_vec, lift. rewrite Forall_map. reflexivity.
Qed.

Lemma Forall_zip_with {A B C : Type} (P : A -> Prop) (Q : B -> Prop)
    (S : C -> Prop) (f : A -> B -> C) (l : list A) (l' : list B) :
  (forall a b, P a -> Q b -> S (f a b)) ->
  Forall P l -> Forall Q l' -> Forall S (zip_with f l l').
Proof.
  intros Hf Hl. revert l'.
  induction Hl as [| a l Ha _ IH]; intros l' Hl'; simpl; [constructor |].
  destruct Hl' as [| b l' Hb Hl']; constructor; auto.
Qed.

Lemma Rsum_zip_plus (a b : list R) :
  length a = length b ->
  Rsum (zip_with Rplus a b) = Rsum a + Rsum b.
Proof.
  unfold Rsum. revert b.
  induction a as [| x a IH]; intros [| y b] Hlen; simpl in *;
    try discriminate; [lra |].
  rewrite IH by lia. lra.
Qed.

Lemma Rsum_scale (c : R) (l : list R) : Rsum (map (Rmult c) l) = c * Rsum l.
Proof.
  unfold Rsum. induction l as [| a l IH]; simpl; [lra |]. rewrite IH. lra.
Qed.

Lemma online_update_lift (s : R) (x m : list R) :
  KL.online_update (KL.mk (lift m)) (lift x) (Fin s)
  = KL.mk (lift (ema_step s x m)).
Proof.
  unfold KL.online_update, ema_step. cbn [KL.mean].
  change (fsub (Fin 1) (Fin s)) with (Fin (1 - s)).
  rewrite !vscale_lift, vadd_lift. reflexivity.
Qed.



Lemma nth_zip_with_R (f : R -> R -> R) (a b : list R) (k : nat) :
  (k < length a)%nat -> (k < length b)%nat ->
  nth k (zip_with f a b) 0 = f (nth k a 0) (nth k b 0).
Proof.
  revert b k. induction a as [| x a IH]; intros [| y b] [| k] Ha Hb;
    simpl in *; try lia; [reflexivity |].
  apply IH; lia.
Qed.

Lemma nth_map_Rmult (c : R) (l : list R) (k : nat) :
  nth k (map (Rmult c) l) 0 = c * nth k l 0.
Proof.
  destruct (Nat.lt_ge_cases k (length l)) as [Hk | Hk].
  - rewrite (nth_indep _ 0 (c * 0)) by (rewrite length_map; exact Hk).
    apply (map_nth (Rmult c)).
  - rewrite !nth_overflow by (try rewrite length_map; exact Hk). lra.
Qed.

Lemma ema_step_length (s : R) (x m : list R) :
  length x = length m -> length (ema_step s x m) = length m.
Proof.
  intros H. unfold ema_step.
  rewrite zip_with_length; rewrite !length_map; congruence.
Qed.

Lemma iter_ema_step_length (s : R) (x m : list R) (n : nat) :
  length x = length m -> length (Nat.iter n (ema_step s x) m) = length m.
Proof.
  intros H. induction n as [| n IH]; [reflexivity |].
  rewrite Nat.iter_succ, ema_step_length; congruence.
Qed.

Lemma nth_ema_step (s : R) (x m : list R) (k : nat) :
  length x = length m -> (k < length m)%nat ->
  nth k (ema_step s x m) 0 = (1 - s) * nth k m 0 + s * nth k x 0.
Proof.
  intros Hlen Hk. unfold ema_step.
  rewrite nth_zip_with_R by (rewrite length_map; lia).
  rewrite !nth_map_Rmult. reflexivity.
Qed.

Lemma nth_iter_ema_step (s : R) (x m : list R) (k n : nat) :
  length x = length m -> (k < length m)%nat ->
  nth k (Nat.iter n (ema_step s x) m) 0
  = nth k x 0 + (1 - s) ^ n * (nth k m 0 - nth k x 0).
Proof.
  intros Hlen Hk. induction n as [| n IH].
  - simpl. lra.
  - rewrite Nat.iter_succ, nth_ema_step;
      rewrite ?iter_ema_step_length; try assumption.
    rewrite IH. simpl. lra.
Qed.

Lemma KL_repeat_update_lift (s : R) (x m : list R) (n : nat) :
  KL_repeat_update (KL.mk (lift m)) (lift x) (Fin s) n
  = KL.mk (lift (Nat.iter n (ema_step s x) m)).
Proof.
  unfold KL_repeat_update. induction n as [| n IH]; [reflexivity |].
  rewrite !Nat.iter_succ, IH. apply online_update_lift.
Qed.

Lemma geometric_cv_shift (q c l : R) :
  Rabs q < 1 -> Un_cv (fun n => l + q ^ n * c) l.
Proof.
  intros Hq eps Heps.
  destruct (geometric_cv_0 q c Hq eps Heps) as [N HN].
  exists N. intros n Hn. specialize (HN n Hn).
  unfold R_dist in *.
  replace (l + q ^ n * c - l) with (q ^ n * c - 0) by ring.
  exact HN.
Qed.



(** ** The weighted mean of max_likelihood *)

Lemma np_zeros_lift (D : nat) : np_zeros D = lift (repeat 0 D).
Proof. unfold np_zeros, lift. rewrite map_repeat. reflexivity. Qed.

Lemma wsum_lift (D : nat) (w : list R) (XR : list (list R)) :
  fold_right vadd (np_zeros D) (zip_with vscale (lift w) (map lift XR))
  = lift (Rwsum D w XR).
Proof.
  unfold Rwsum. revert XR.
  induction w as [| a w IH]; intros [| r XR]; try apply np_zeros_lift.
  cbn [lift map zip_with fold_right]. fold (lift w) (lift r).
  rewrite IH, vscale_lift, vadd_lift. reflexivity.
Qed.

Lemma weighted_mean_lift (D : nat) (w : list R) (XR : list (list R)) :
  Rsum w <> 0 ->
  weighted_mean (mk2d D (map lift XR)) (lift w)
  = lift (map (fun s => s / Rsum w) (Rwsum D w XR)).
Proof.
  intros HW. unfold weighted_mean, sum_axis0, scale_rows. cbn [rows shape1].
  rewrite wsum_lift, np_sum_lift. apply vdivs_lift. exact HW.
Qed.

Lemma Rwsum_length (D : nat) (w : list R) (XR : list (list R)) :
  Forall (fun r => length r = D) XR -> length (Rwsum D w XR) = D.
Proof.
  unfold Rwsum. intros H. revert w.
  induction H as [| r XR Hr _ IH]; intros [| a w];
    try apply repeat_length.
  cbn [zip_with fold_right].
  rewrite zip_with_length; rewrite length_map; [exact Hr |].
  rewrite IH. exact Hr.
Qed.

(** Rows that each sum to 1 have a weighted sum that sums to [Σ w]. *)
Lemma Rwsum_sum (D : nat) (w : list R) (XR : list (list R)) :
  Forall (fun r => length r = D) XR ->
  Forall (fun r => Rsum r = 1) XR ->
  length w = length XR ->
  Rsum (Rwsum D w XR) = Rsum w.
Proof.
  intros Hlen. revert w.
  induction Hlen as [| r XR Hr Hlen IH]; intros [| a w] Hs Hw;
    simpl in Hw; try discriminate.
  - unfold Rwsum, Rsum. simpl. clear. induction D; simpl; lra.
  - inversion Hs as [| ? ? Hr1 Hs']; subst.
    specialize (IH w Hs' (eq_add_S _ _ Hw)).
    unfold Rwsum in *. cbn [zip_with fold_right].
    rewrite Rsum_zip_plus.
    + rewrite Rsum_scale, IH, Hr1. unfold Rsum. simpl. lra.
    + rewrite length_map. symmetry. apply (Rwsum_length (length r)). exact Hlen.
Qed.

(** Entries between [lo] and [hi] keep the weighted sum between
    [lo · Σ w] and [hi · Σ w]. *)
Lemma Rwsum_within (lo hi : R) (D : nat) (w : list R) (XR : list (list R)) :
  Forall (Forall (fun a => lo <= a <= hi)) XR ->
  Forall (fun a => 0 <= a) w ->
  length w = length XR ->
  Forall (fun s => lo * Rsum w <= s <= hi * Rsum w) (Rwsum D w XR).
Proof.
  intros HX. revert w.
  induction HX as [| r XR Hr _ IH]; intros [| a w] Hw Hlen;
    simpl in Hlen; try discriminate.
  - unfold Rwsum, Rsum. simpl. clear. induction D; simpl; constructor; auto. lra.
  - inversion Hw as [| ? ? Ha Hw']; subst.
    specialize (IH w Hw' (eq_add_S _ _ Hlen)).
    unfold Rwsum in *. cbn [zip_with fold_right].
    apply (Forall_zip_with (fun t => lo * a <= t <= hi * a)
             (fun s => lo * Rsum w <= s <= hi * Rsum w)).
    + intros t u Ht Hu. unfold Rsum in *. simpl. nra.
    + apply Forall_map. eapply Forall_impl; [| exact Hr].
      intros x Hx. simpl. nra.
    + exact IH.
Qed.

Lemma within_finite (lo hi : R) (x : float64) : within lo hi x -> finite x.
Proof. destruct x; simpl; tauto. Qed.

Lemma within_lift (lo hi : R) (l : list R) :
  Forall (within lo hi) (lift l) <-> Forall (fun a => lo <= a <= hi) l.
Proof. unfold lift. rewrite Forall_map. reflexivity. Qed.

Lemma Forall_map_lift {P : vec -> Prop} (XR : list (list R)) :
  Forall P (map lift XR) <-> Forall (fun r => P (lift r)) XR.
Proof. apply Forall_map. Qed.

Lemma weighted_mean_within (lo hi : R) (X : ndarray2) (N D : nat) (w : vec) :
  has_shape N D X ->
  Forall (Forall (within lo hi)) (rows X) ->
  length w = N -> nonneg_vec w -> fpos (np_sum w) ->
  Forall (within lo hi) (weighted_mean X w).
Proof.
  intros (H0 & H1 & Hwf) HX Hlen Hw Hs.
  assert (Hfin : finite_mat X).
  { unfold finite_mat. eapply Forall_impl; [| exact HX].
    intros r. apply Forall_impl. apply within_finite. }
  destruct (finite_mat_lift X Hfin) as [XR HXR].
  destruct (finite_vec_lift _ (nonneg_finite_vec _ Hw)) as [wr ->].
  destruct X as [d rws]. unfold shape0 in H0. cbn [rows shape1] in *. subst.
  rewrite np_sum_lift in Hs. cbn [fpos] in Hs. fold (Rsum wr) in Hs.
  rewrite weighted_mean_lift by lra.
  apply within_lift. rewrite lift_length, length_map in Hlen.
  rewrite Forall_map_lift in HX.
  assert (HX' : Forall (Forall (fun a => lo <= a <= hi)) XR).
  { eapply Forall_impl; [| exact HX]. intros r. apply within_lift. }
  apply nonneg_vec_lift in Hw.
  apply Forall_map.
  eapply Forall_impl; [| apply (Rwsum_within lo hi D wr XR HX' Hw Hlen)].
  intros s [Hlo Hhi]. cbv beta.
  assert (Hinv : 0 < / Rsum wr) by (apply Rinv_0_lt_compat; exact Hs).
  unfold Rdiv. split.
  - apply Rmult_le_reg_r with (Rsum wr); [exact Hs |].
    rewrite Rmult_assoc, Rinv_l by lra. lra.
  - apply Rmult_le_reg_r with (Rsum wr); [exact Hs |].
    rewrite Rmult_assoc, Rinv_l by lra. lra.
Qed.

(** The mean [SquareDistance] and [KL] store on a finite batch. *)
Lemma mean_branch_as_weights (X : ndarray2) (N D : nat) (w : weights) :
  has_shape N D X -> finite_mat X -> length (as_vec w) = N ->
  match w with
  | WBool mask => mean_axis0 (select_rows mask X)
  | WFloat v => weighted_mean X v
  end = weighted_mean X (as_vec w).
Proof.
  intros HX Hfin Hlen. destruct w as [mask | v]; [| reflexivity].
  cbn [as_vec] in *. rewrite length_map in Hlen.
  apply (mask_mean_as_weights X N D); assumption.
Qed.





(** ** The densities of SquareDistance *)

Lemma fpow_fin (a : R) (n : nat) : fpow (Fin a) n = Fin (a ^ n).
Proof. induction n as [| n IH]; simpl; [reflexivity |]. rewrite IH. reflexivity. Qed.

Lemma np_log_pos (r : R) : 0 < r -> np_log (Fin r) = Fin (ln r).
Proof. intros H. simpl. rewrite Rsign_pos by exact H. reflexivity. Qed.

Lemma np_sqrt_pos (r : R) : 0 < r -> np_sqrt (Fin r) = Fin (sqrt r).
Proof. intros H. simpl. rewrite Rsign_pos by exact H. reflexivity. Qed.

Lemma np_exp_lift (l : list R) : map np_exp (lift l) = lift (map exp l).
Proof. unfold lift. rewrite !map_map. reflexivity. Qed.

Lemma ssub_lift (c : R) (l : list R) :
  ssub (Fin c) (lift l) = lift (map (fun a => c - a) l).
Proof. unfold ssub, lift. rewrite !map_map. reflexivity. Qed.

Lemma distances_lift (mean : vec) (X : ndarray2) :
  finite_mat X -> finite_vec mean ->
  exists ds, sum_axis1 (msquare (sub_rows X mean)) = lift ds /\
             Forall (fun d => 0 <= d) ds.
Proof.
  intros HX Hm. pose proof (dists_nonneg X mean HX Hm) as Hnn.
  destruct (finite_vec_lift _ (nonneg_finite_vec _ Hnn)) as [ds Hds].
  exists ds. split; [exact Hds |]. rewrite Hds in Hnn.
  apply nonneg_vec_lift. exact Hnn.
Qed.

Lemma ln_sqrt_half (y : R) : 0 < y -> ln (sqrt y) = ln y / 2.
Proof.
  intros Hy. pose proof (sqrt_lt_R0 y Hy) as Hs.
  assert (H : ln y = ln (sqrt y) + ln (sqrt y)).
  { rewrite <- ln_mult by exact Hs. rewrite sqrt_sqrt by lra. reflexivity. }
  lra.
Qed.

(** The logarithm of [1 / sqrt(y) · exp(z)]. *)
Lemma ln_normalized (y z : R) :
  0 < y -> ln (1 / sqrt y * exp z) = - (ln y / 2) + z.
Proof.
  intros Hy. pose proof (sqrt_lt_R0 y Hy) as Hs.
  assert (Hi : 0 < 1 / sqrt y).
  { unfold Rdiv. rewrite Rmult_1_l. apply Rinv_0_lt_compat. exact Hs. }
  rewrite ln_mult by (try exact Hi; apply exp_pos).
  rewrite ln_exp. unfold Rdiv at 1. rewrite Rmult_1_l.
  rewrite ln_Rinv by exact Hs. rewrite ln_sqrt_half by exact Hy. reflexivity.
Qed.

(** The normalizing factor of [SquareDistance.pdf]. *)
Lemma SquareDistance_normalizer (s : R) (n : nat) :
  0 < s ->
  fdiv (Fin 1) (np_sqrt (fpow (fmul (fmul (Fin 2) np_pi) (Fin s)) n))
  = Fin (1 / sqrt ((2 * PI * s) ^ n)) /\
  0 < 1 / sqrt ((2 * PI * s) ^ n).
Proof.
  intros Hs. pose proof Rgt_2PI_0 as Hpi.
  assert (Hy : 0 < (2 * PI * s) ^ n).
  { apply pow_lt. apply Rmult_lt_0_compat; assumption. }
  pose proof (sqrt_lt_R0 _ Hy) as Hsq.
  unfold np_pi. cbn [fmul]. rewrite fpow_fin, np_sqrt_pos by exact Hy.
  rewrite fdiv_fin by lra. split; [reflexivity |].
  unfold Rdiv. rewrite Rmult_1_l. apply Rinv_0_lt_compat. exact Hsq.
Qed.



Lemma exp_scaled_distance (s r : R) :
  0 < s -> 0 <= r ->
  0 < exp (- (0.5) * r / s) <= 1 /\ (exp (- (0.5) * r / s) = 1 <-> r = 0).
Proof.
  intros Hs Hr.
  assert (Hq : 0 <= r / s).
  { apply Rmult_le_pos; [exact Hr | left; apply Rinv_0_lt_compat; exact Hs]. }
  assert (H05 : 0.5 = / 2) by lra.
  assert (Hz : - (0.5) * r / s = - (r / s / 2)) by (rewrite H05; field; lra).
  rewrite Hz. split; [split; [apply exp_pos |] | split].
  - destruct (Req_dec (r / s) 0) as [H0 | H0].
    + rewrite H0. replace (- (0 / 2)) with 0 by lra. rewrite exp_0. lra.
    + left. rewrite <- exp_0. apply exp_increasing. lra.
  - intros H. rewrite <- exp_0 in H. apply exp_inv in H.
    assert (Hrs : r / s = 0) by lra.
    unfold Rdiv in Hrs. apply Rmult_integral in Hrs.
    destruct Hrs as [Hr0 | Hinv]; [exact Hr0 |].
    pose proof (Rinv_0_lt_compat s Hs). lra.
  - intros ->. replace (- (0 / s / 2)) with 0 by (field; lra). apply exp_0.
Qed.



(** ** The densities of Gaussian *)

Lemma np_sum_finite (v : vec) : finite_vec v -> finite (np_sum v).
Proof.
  induction 1 as [| a v Ha _ IH]; simpl; [exact I |].
  apply fadd_finite; assumption.
Qed.

Lemma vmul_finite (a b : vec) :
  finite_vec a -> finite_vec b -> finite_vec (vmul a b).
Proof.
  intros Ha Hb. unfold vmul.
  apply (Forall_zip_with finite finite); try assumption.
  intros x y. apply fmul_finite.
Qed.

Lemma vdot_finite (a b : vec) :
  finite_vec a -> finite_vec b -> finite (vdot a b).
Proof. intros Ha Hb. apply np_sum_finite. apply vmul_finite; assumption. Qed.

Lemma nth_finite (j : nat) (v : vec) : finite_vec v -> finite (nth j v (Fin 0)).
Proof.
  intros Hv. revert j.
  induction Hv as [| a v Ha _ IH]; intros [| j]; simpl; auto.
Qed.

Lemma col_finite (j : nat) (M : ndarray2) : finite_mat M -> finite_vec (col j M).
Proof.
  intros HM. unfold col. apply Forall_map.
  eapply Forall_impl; [| exact HM].
  intros r Hr. apply nth_finite. exact Hr.
Qed.

Lemma vec_mat_finite (v : vec) (M : ndarray2) :
  finite_vec v -> finite_mat M -> finite_vec (vec_mat v M).
Proof.
  intros Hv HM. unfold vec_mat. apply Forall_map. apply Forall_forall.
  intros j _. apply vdot_finite; [exact Hv | apply col_finite; exact HM].
Qed.

Lemma mat_mat_finite (A B : ndarray2) :
  finite_mat A -> finite_mat B -> finite_mat (mat_mat A B).
Proof.
  intros HA HB. unfold finite_mat, mat_mat. cbn [rows]. apply Forall_map.
  eapply Forall_impl; [| exact HA].
  intros r Hr. apply vec_mat_finite; assumption.
Qed.

Lemma transpose_finite (M : ndarray2) : finite_mat M -> finite_mat (transpose M).
Proof.
  intros HM. unfold finite_mat, transpose. cbn [rows]. apply Forall_map.
  apply Forall_forall. intros j _. apply col_finite. exact HM.
Qed.

Lemma sub_rows_finite (X : ndarray2) (m : vec) :
  finite_mat X -> finite_vec m -> finite_mat (sub_rows X m).
Proof.
  intros HX Hm. unfold finite_mat, sub_rows. cbn [rows]. apply Forall_map.
  eapply Forall_impl; [| exact HX].
  intros r Hr. apply vsub_finite; assumption.
Qed.

Lemma np_diag_finite (M : ndarray2) : finite_mat M -> finite_vec (np_diag M).
Proof.
  intros HM. unfold np_diag. apply Forall_map. apply Forall_forall.
  intros i _. apply nth_finite.
  destruct (Nat.lt_ge_cases i (length (rows M))) as [Hi | Hi].
  - unfold finite_mat in HM. rewrite Forall_forall in HM.
    apply HM. apply nth_In. exact Hi.
  - rewrite nth_overflow by exact Hi. constructor.
Qed.

(** The normalizing factor of [Gaussian.pdf] for a positive determinant. *)
Lemma Gaussian_normalizer (delta : R) (n : nat) :
  0 < delta ->
  fdiv (Fin 1) (np_sqrt (fmul (fpow (fmul (Fin 2) np_pi) n) (Fin delta)))
  = Fin (1 / sqrt ((2 * PI) ^ n * delta)) /\
  0 < 1 / sqrt ((2 * PI) ^ n * delta).
Proof.
  intros Hd. pose proof Rgt_2PI_0 as Hpi.
  assert (Hy : 0 < (2 * PI) ^ n * delta).
  { apply Rmult_lt_0_compat; [apply pow_lt; exact Hpi | exact Hd]. }
  pose proof (sqrt_lt_R0 _ Hy) as Hsq.
  unfold np_pi. change (fmul (Fin 2) (Fin PI)) with (Fin (2 * PI)).
  rewrite fpow_fin. cbn [fmul]. rewrite np_sqrt_pos by exact Hy.
  rewrite fdiv_fin by lra. split; [reflexivity |].
  unfold Rdiv. rewrite Rmult_1_l. apply Rinv_0_lt_compat. exact Hsq.
Qed.



(** ** The covariance Gaussian.max_likelihood stores *)

Lemma nth_map_seq {A : Type} (f : nat -> A) (d : A) (n k : nat) :
  (k < n)%nat -> nth k (map f (seq 0 n)) d = f k.
Proof.
  intros Hk. rewrite (nth_indep _ d (f 0%nat))
    by (rewrite length_map, length_seq; exact Hk).
  rewrite map_nth, seq_nth by exact Hk. reflexivity.
Qed.

(** A square array given by a symmetric function of the indices is its
    own transpose. *)
Lemma transpose_symmetric_fun (D : nat) (E : nat -> nat -> float64) :
  (forall j k, (j < D)%nat -> (k < D)%nat -> E j k = E k j) ->
  transpose (mk2d D (map (fun j => map (E j) (seq 0 D)) (seq 0 D)))
  = mk2d D (map (fun j => map (E j) (seq 0 D)) (seq 0 D)).
Proof.
  intros Hsym. unfold transpose, shape0, col. cbn [rows shape1].
  rewrite length_map, length_seq. f_equal.
  apply map_ext_in. intros k Hk. apply in_seq in Hk.
  rewrite map_map. apply map_ext_in. intros j Hj. apply in_seq in Hj.
  rewrite nth_map_seq by lia. apply Hsym; lia.
Qed.

Lemma diag_entry_fun (D : nat) (E : nat -> nat -> float64) (j : nat) :
  (j < D)%nat ->
  nth j (nth j (rows (mk2d D (map (fun j => map (E j) (seq 0 D)) (seq 0 D))))
               []) (Fin 0)
  = E j j.
Proof.
  intros Hj. cbn [rows].
  transitivity (nth j (map (E j) (seq 0 D)) (Fin 0)).
  - f_equal. apply (nth_map_seq (fun j => map (E j) (seq 0 D)) [] D j Hj).
  - apply nth_map_seq. exact Hj.
Qed.

Lemma nth_vscale (a : float64) (d : vec) (k : nat) :
  finite a -> nth k (vscale a d) (Fin 0) = fmul a (nth k d (Fin 0)).
Proof.
  intros Ha. unfold vscale.
  destruct (Nat.lt_ge_cases k (length d)) as [Hk | Hk].
  - rewrite (nth_indep _ (Fin 0) (fmul a (Fin 0)))
      by (rewrite length_map; exact Hk).
    apply (map_nth (fmul a)).
  - rewrite !nth_overflow by (try rewrite length_map; exact Hk).
    destruct a; simpl in *; try contradiction. f_equal. lra.
Qed.

(** Entry (j, k) of [diff.T.dot(w[:, newaxis] * diff)]. *)
Lemma gram_entry_sym (w : vec) (ds : list vec) (j k : nat) :
  finite_vec w -> Forall finite_vec ds ->
  vdot (map (fun r => nth j r (Fin 0)) ds)
       (map (fun r => nth k r (Fin 0)) (zip_with vscale w ds))
  = vdot (map (fun r => nth k r (Fin 0)) ds)
         (map (fun r => nth j r (Fin 0)) (zip_with vscale w ds)).
Proof.
  intros Hw. revert ds. unfold vdot, vmul, np_sum.
  induction Hw as [| a w Ha _ IH]; intros ds Hds.
  - destruct ds; reflexivity.
  - destruct Hds as [| d ds Hd Hds]; [reflexivity |].
    cbn [zip_with map fold_right]. rewrite (IH ds Hds). f_equal.
    rewrite !nth_vscale by exact Ha.
    pose proof (nth_finite j d Hd) as Hj. pose proof (nth_finite k d Hd) as Hk.
    destruct (nth j d (Fin 0)), (nth k d (Fin 0)), a;
      simpl in *; try contradiction.
    f_equal. ring.
Qed.

Lemma gram_entry_diag_nonneg (w : vec) (ds : list vec) (j : nat) :
  nonneg_vec w -> Forall finite_vec ds ->
  fnonneg (vdot (map (fun r => nth j r (Fin 0)) ds)
                (map (fun r => nth j r (Fin 0)) (zip_with vscale w ds))).
Proof.
  intros Hw. revert ds. unfold vdot, vmul, np_sum.
  induction Hw as [| a w Ha _ IH]; intros ds Hds.
  - destruct ds; simpl; lra.
  - destruct Hds as [| d ds Hd Hds]; [simpl; lra |].
    cbn [zip_with map fold_right].
    apply fadd_nonneg; [| apply IH; exact Hds].
    rewrite nth_vscale by (apply fnonneg_finite; exact Ha).
    pose proof (nth_finite j d Hd) as Hj.
    destruct (nth j d (Fin 0)), a; simpl in *; try contradiction.
    nra.
Qed.

(** The rows of the covariance, entry by entry. *)
Lemma cov_rows (diff : ndarray2) (w : vec) (W : float64) :
  mdivs (mat_mat (transpose diff) (scale_rows w diff)) W
  = mk2d (shape1 diff)
      (map (fun j =>
              map (fun k =>
                     fdiv (vdot (col j diff) (col k (scale_rows w diff))) W)
                  (seq 0 (shape1 diff)))
           (seq 0 (shape1 diff))).
Proof.
  unfold mdivs, mat_mat, transpose, vec_mat, vdivs. cbn [rows shape1].
  f_equal. rewrite !map_map. apply map_ext. intros j.
  rewrite map_map. reflexivity.
Qed.



Lemma Rdot_comm (a b : list R) : Rdot a b = Rdot b a.
Proof.
  unfold Rdot. revert b.
  induction a as [| x a IH]; intros [| y b]; simpl; try reflexivity.
  rewrite IH. ring.
Qed.

Lemma Rdot_map_add_l {A : Type} (f h : A -> R) (l : list A) (v : list R) :
  Rdot (map (fun k => f k + h k) l) v
  = Rdot (map f l) v + Rdot (map h l) v.
Proof.
  unfold Rdot. revert v.
  induction l as [| a l IH]; intros [| y v]; simpl; try lra.
  rewrite IH. ring.
Qed.

Lemma Rdot_map_scal_l {A : Type} (c : R) (f : A -> R) (l : list A)
    (v : list R) :
  Rdot (map (fun k => c * f k) l) v = c * Rdot (map f l) v.
Proof.
  unfold Rdot. revert v.
  induction l as [| a l IH]; intros [| y v]; simpl; try lra.
  rewrite IH. ring.
Qed.

Lemma Rquad_ext (D : nat) (E1 E2 : nat -> nat -> R) (v : list R) :
  (forall j k, E1 j k = E2 j k) -> Rquad D E1 v = Rquad D E2 v.
Proof.
  intros H. unfold Rquad. f_equal. apply map_ext. intros j.
  f_equal. apply map_ext. intros k. apply H.
Qed.

Lemma Rquad_add (D : nat) (E1 E2 : nat -> nat -> R) (v : list R) :
  Rquad D (fun j k => E1 j k + E2 j k) v = Rquad D E1 v + Rquad D E2 v.
Proof.
  unfold Rquad.
  rewrite (map_ext _ (fun j => Rdot (map (E1 j) (seq 0 D)) v
                               + Rdot (map (E2 j) (seq 0 D)) v))
    by (intros j; apply Rdot_map_add_l).
  rewrite !(Rdot_comm v). apply Rdot_map_add_l.
Qed.

(** The quadratic form of a rank-one array is a multiple of a square. *)
Lemma Rquad_rank1 (D : nat) (x : nat -> R) (a c : R) (v : list R) :
  Rquad D (fun j k => x j * (a * x k) * c) v
  = a * c * (Rdot (map x (seq 0 D)) v * Rdot (map x (seq 0 D)) v).
Proof.
  unfold Rquad. set (P := Rdot (map x (seq 0 D)) v).
  rewrite (map_ext _ (fun j => (a * c * P) * x j)).
  - rewrite (Rdot_comm v), Rdot_map_scal_l. fold P. ring.
  - intros j.
    rewrite (map_ext _ (fun k => (x j * a * c) * x k)) by (intros k; ring).
    rewrite Rdot_map_scal_l. fold P. ring.
Qed.

Lemma Rgram_cons (a : R) (w : list R) (d : list R) (ds : list (list R))
    (j k : nat) :
  Rgram (a :: w) (d :: ds) j k
  = nth j d 0 * (a * nth k d 0) + Rgram w ds j k.
Proof.
  unfold Rgram, Rdot. cbn [zip_with map fold_right].
  rewrite nth_map_Rmult. reflexivity.
Qed.

Lemma Rgram_nil (w : list R) (ds : list (list R)) (j k : nat) :
  w = [] \/ ds = [] -> Rgram w ds j k = 0.
Proof.
  intros [-> | ->]; unfold Rgram, Rdot; [| reflexivity].
  destruct ds; reflexivity.
Qed.

(** The weighted Gram array is positive semi-definite. *)
Lemma Rquad_gram_nonneg (D : nat) (c : R) (v : list R) (w : list R)
    (ds : list (list R)) :
  0 <= c -> Forall (fun a => 0 <= a) w ->
  0 <= Rquad D (fun j k => Rgram w ds j k * c) v.
Proof.
  intros Hc Hw. revert ds.
  induction Hw as [| a w Ha _ IH]; intros ds.
  - rewrite (Rquad_ext D _ (fun j k => (fun _ => 0) j * (0 * (fun _ => 0) k) * c)).
    + rewrite Rquad_rank1. lra.
    + intros j k. rewrite Rgram_nil by (left; reflexivity). ring.
  - destruct ds as [| d ds].
    + rewrite (Rquad_ext D _
                 (fun j k => (fun _ => 0) j * (0 * (fun _ => 0) k) * c)).
      * rewrite Rquad_rank1. lra.
      * intros j k. rewrite Rgram_nil by (right; reflexivity). ring.
    + rewrite (Rquad_ext D _
                 (fun j k => (fun i => nth i d 0) j
                             * (a * (fun i => nth i d 0) k) * c
                             + Rgram w ds j k * c)).
      * rewrite Rquad_add, Rquad_rank1.
        specialize (IH ds).
        pose proof (Rle_0_sqr (Rdot (map (fun i => nth i d 0) (seq 0 D)) v))
          as Hsq. unfold Rsqr in Hsq.
        assert (0 <= a * c) by (apply Rmult_le_pos; assumption).
        nra.
      * intros j k. rewrite Rgram_cons. ring.
Qed.

Lemma col_lift (j : nat) (D : nat) (dr : list (list R)) :
  col j (mk2d D (map lift dr)) = lift (map (fun r => nth j r 0) dr).
Proof.
  unfold col, lift. cbn [rows]. rewrite !map_map.
  apply map_ext. intros r. apply (map_nth Fin).
Qed.

Lemma zip_vscale_lift (w : list R) (dr : list (list R)) :
  zip_with vscale (lift w) (map lift dr)
  = map lift (zip_with (fun a r => map (Rmult a) r) w dr).
Proof.
  revert dr. induction w as [| a w IH]; intros [| r dr]; try reflexivity.
  cbn [lift map zip_with]. fold (lift w) (lift r).
  rewrite IH, vscale_lift. reflexivity.
Qed.



(** ** KLSufficientStatistics: index errors and total mass *)


Lemma vec_mat_nil_rows (v : vec) (K : nat) :
  vec_mat v (mk2d K []) = np_zeros K.
Proof.
  unfold vec_mat, col, np_zeros. cbn [rows shape1 map].
  rewrite (map_const _ (Fin 0)); [rewrite length_seq; reflexivity |].
  intros j _. unfold vdot, vmul. destruct v; reflexivity.
Qed.

Lemma vec_mat_nil_vec (M : ndarray2) : vec_mat [] M = np_zeros (shape1 M).
Proof.
  unfold vec_mat, np_zeros.
  rewrite (map_const _ (Fin 0)); [rewrite length_seq; reflexivity |].
  intros j _. reflexivity.
Qed.

(** [v.dot(M)] is the sum of the rows of [M] weighted by [v]. *)
Lemma vec_mat_cons (a : float64) (v row : vec) (K : nat) (l : list vec) :
  length row = K ->
  vec_mat (a :: v) (mk2d K (row :: l))
  = vadd (vscale a row) (vec_mat v (mk2d K l)).
Proof.
  intros Hrow. unfold vec_mat, col, vscale, vadd. cbn [rows shape1 map].
  rewrite <- (map_seq_nth (fmul a) (Fin 0) row), Hrow, zip_with_map.
  apply map_ext. intros j. reflexivity.
Qed.

Lemma vec_mat_lift (K : nat) (vr : list R) (rr : list (list R)) :
  Forall (fun r => length r = K) rr ->
  vec_mat (lift vr) (mk2d K (map lift rr)) = lift (Rwsum K vr rr).
Proof.
  intros Hrr. revert vr.
  induction Hrr as [| r rr Hr _ IH]; intros vr.
  - cbn [map]. rewrite vec_mat_nil_rows. unfold Rwsum.
    destruct vr; apply np_zeros_lift.
  - destruct vr as [| a vr].
    + cbn [lift map]. rewrite vec_mat_nil_vec. apply np_zeros_lift.
    + cbn [lift map]. fold (lift vr) (lift r).
      rewrite vec_mat_cons by (rewrite lift_length; exact Hr).
      rewrite IH, vscale_lift, vadd_lift. reflexivity.
Qed.

Lemma Rsum_set_nth_add (i : nat) (l : list R) (t : R) :
  (i < length l)%nat ->
  Rsum (set_nth i l (nth i l 0 + t)) = Rsum l + t.
Proof.
  unfold Rsum. revert i.
  induction l as [| a l IH]; intros [| i] Hi; simpl in *; try lia.
  - lra.
  - rewrite IH by lia. lra.
Qed.

(** Decay, mix by a row-stochastic [r], then add [t] at [cluster_id]:
    the entries then sum to [(1 - s) · Σ row + t]. *)
Lemma mixed_row_sum (K cid : nat) (s t : R) (row : list R)
    (rr : list (list R)) :
  Forall (fun r => length r = K) rr ->
  Forall (fun r => Rsum r = 1) rr ->
  length row = length rr ->
  (cid < K)%nat ->
  let v := vscale (fsub (Fin 1) (Fin s))
             (vec_mat (lift row) (mk2d K (map lift rr))) in
  np_sum (set_nth cid v (fadd (nth cid v (Fin 0)) (Fin t)))
  = Fin ((1 - s) * Rsum row + t).
Proof.
  intros Hlen Hsum Hrow Hcid v. unfold v.
  rewrite (vec_mat_lift K row rr Hlen).
  change (fsub (Fin 1) (Fin s)) with (Fin (1 - s)).
  rewrite vscale_lift, nth_lift. cbn [fadd]. unfold lift at 1.
  rewrite set_nth_map. fold (lift (set_nth cid (map (Rmult (1 - s)) (Rwsum K row rr))
      (nth cid (map (Rmult (1 - s)) (Rwsum K row rr)) 0 + t))).
  rewrite np_sum_lift. f_equal.
  fold (Rsum (set_nth cid (map (Rmult (1 - s)) (Rwsum K row rr))
      (nth cid (map (Rmult (1 - s)) (Rwsum K row rr)) 0 + t))).
  rewrite Rsum_set_nth_add
    by (rewrite length_map, (Rwsum_length K row rr Hlen); exact Hcid).
  rewrite Rsum_scale, (Rwsum_sum K row rr Hlen Hsum Hrow). reflexivity.
Qed.

Lemma row_stochastic_lift (rr : list (list R)) (K : nat) :
  row_stochastic (mk2d K (map lift rr)) -> Forall (fun r => Rsum r = 1) rr.
Proof.
  unfold row_stochastic. cbn [rows]. rewrite Forall_map.
  apply Forall_impl. intros r Hr.
  rewrite np_sum_lift in Hr. injection Hr as Hr. exact Hr.
Qed.



(** ** KL.online_max_likelihood with an indicator vector *)

Lemma one_hot_lift (K k : nat) :
  one_hot K k = lift (map (fun i => if Nat.eqb i k then 1 else 0) (seq 0 K)).
Proof.
  unfold one_hot, lift. rewrite map_map. apply map_ext.
  intros i. destruct (Nat.eqb i k); reflexivity.
Qed.

Lemma vdot_one_hot (v : vec) (k : nat) :
  finite_vec v -> vdot v (one_hot (length v) k) = nth k v (Fin 0).
Proof.
  intros Hv. destruct (finite_vec_lift v Hv) as [l ->].
  rewrite lift_length, one_hot_lift, vdot_lift, Rdot_delta, nth_lift.
  reflexivity.
Qed.

(** X14.  On finite statistics with K clusters, [online_max_likelihood]
    with the indicator vector of cluster [k] stores column [k] of [rho]
    divided by [rho0[k]]. *)
Theorem KL_online_max_likelihood_one_hot :
  forall (kl : KL.t) (st : KLSufficientStatistics.t) (k : nat),
    wf_stats st ->
    finite_vec (KLSufficientStatistics.rho0 st) ->
    finite_mat (KLSufficientStatistics.rho st) ->
    (k < KLSufficientStatistics.K st)%nat ->
    KL.mean (KL.online_max_likelihood kl st (one_hot (KLSufficientStatistics.K st) k))
    = vdivs (col k (KLSufficientStatistics.rho st))
            (nth k (KLSufficientStatistics.rho0 st) (Fin 0)).
Proof.
  intros kl st k (Hl0 & Hs1 & Hwf & _) H0 HM _.
  unfold KL.online_max_likelihood. cbn [KL.mean].
  rewrite <- Hl0 at 2. rewrite (vdot_one_hot _ k H0). f_equal.
  unfold mat_vec, col. apply map_ext_in. intros r Hr.
  unfold wf2d in Hwf. rewrite Forall_forall in Hwf.
  unfold finite_mat in HM. rewrite Forall_forall in HM.
  rewrite <- Hs1, <- (Hwf r Hr). apply vdot_one_hot. apply HM. exact Hr.
Qed.

Lemma KL_online_max_likelihood_one_hot_witness :
  let st := KLSufficientStatistics.mk 0 2 (lift [/ 4; 3 / 4])
              (lift2 2 [[1; 2]; [3; 4]]) in
  KL.mean (KL.online_max_likelihood (KL.mk (lift [/ 2; / 2])) st (one_hot 2 1))
  = vdivs (col 1 (KLSufficientStatistics.rho st))
          (nth 1 (KLSufficientStatistics.rho0 st) (Fin 0)).
Proof.
  apply (KL_online_max_likelihood_one_hot (KL.mk (lift [/ 2; / 2]))
           (KLSufficientStatistics.mk 0 2 (lift [/ 4; 3 / 4])
              (lift2 2 [[1; 2]; [3; 4]])) 1).
  - unfold wf_stats, wf2d. simpl.
    repeat split; [forall_list; reflexivity | lia].
  - apply lift_finite.
  - unfold finite_mat, finite_vec. simpl. forall_list; exact I.
  - simpl. lia.
Defined.

(** ** KL scores: sign, and a zero probability in the mean *)

Lemma Rdot_ln_nonpos (x m : list R) :
  Forall (fun a => 0 <= a) x -> Forall (fun p => 0 < p <= 1) m ->
  Rdot x (map ln m) <= 0.
Proof.
  intros Hx. revert m. unfold Rdot.
  induction Hx as [| a x Ha _ IH]; intros m Hm; simpl; [lra |].
  destruct Hm as [| p m Hp Hm]; simpl; [lra |].
  specialize (IH m Hm).
  assert (Hln : ln p <= 0).
  { destruct (Req_dec p 1) as [-> | Hne]; [rewrite ln_1; lra |].
    left. rewrite <- ln_1. apply ln_increasing; lra. }
  nra.
Qed.

Lemma unit_interval_lift (m : list R) :
  Forall unit_interval (lift m) <-> Forall (fun p => 0 < p <= 1) m.
Proof. unfold lift. rewrite Forall_map. reflexivity. Qed.

Lemma unit_interval_finite (x : float64) : unit_interval x -> finite x.
Proof. destruct x; simpl; tauto. Qed.



Lemma np_sum_nan (v : vec) : In NaN v -> np_sum v = NaN.
Proof.
  unfold np_sum. induction v as [| a v IH]; intros Hin; [contradiction |].
  cbn [fold_right]. destruct Hin as [-> | Hin]; [reflexivity |].
  rewrite (IH Hin). destruct a; reflexivity.
Qed.

Lemma nth_zip_with_In {A B C : Type} (f : A -> B -> C) (l : list A)
    (l' : list B) (j : nat) (da : A) (db : B) :
  (j < length l)%nat -> (j < length l')%nat ->
  In (f (nth j l da) (nth j l' db)) (zip_with f l l').
Proof.
  revert l' j. induction l as [| a l IH]; intros [| b l'] [| j] Hl Hl';
    simpl in *; try lia.
  - left. reflexivity.
  - right. apply IH; lia.
Qed.

(** X16.  When [mean] has a 0 at category [j], every row of an N×D batch
    that also has a 0 at [j] gets [nan] from [log_pdf], [pdf] and
    [distances] (the product [0 · log(0)]), whatever its other entries. *)
Theorem KL_zero_mean_entry_nan :
  forall (kl : KL.t) (X : ndarray2) (N D i j : nat) (normalized : bool),
    has_shape N D X ->
    length (KL.mean kl) = D ->
    (i < N)%nat ->
    (j < D)%nat ->
    nth j (KL.mean kl) (Fin 0) = Fin 0 ->
    nth j (nth i (rows X) []) (Fin 0) = Fin 0 ->
    nth i (KL.log_pdf kl X) (Fin 0) = NaN /\
    nth i (KL.pdf kl X normalized) (Fin 0) = NaN /\
    nth i (KL.distances kl X) (Fin 0) = NaN.
Proof.
  intros kl X N D i j normalized (H0 & H1 & Hwf) HD Hi Hj Hm Hx.
  assert (Hi' : (i < shape0 X)%nat) by (rewrite H0; exact Hi).
  assert (Hjm : (j < length (KL.mean kl))%nat) by (rewrite HD; exact Hj).
  assert (Hjx : (j < length (nth i (rows X) []))%nat).
  { unfold wf2d in Hwf. rewrite Forall_forall in Hwf.
    rewrite (Hwf (nth i (rows X) [])), H1; [exact Hj |].
    apply nth_In. exact Hi'. }
  clear Hi. rename Hi' into Hi.
  assert (Hrow : vdot (nth i (rows X) []) (map np_log (KL.mean kl)) = NaN).
  { unfold vdot. apply np_sum_nan. unfold vmul.
    replace NaN with (fmul (nth j (nth i (rows X) []) (Fin 0))
                           (nth j (map np_log (KL.mean kl)) (np_log (Fin 0)))).
    - apply nth_zip_with_In; [exact Hjx | rewrite length_map; exact Hjm].
    - rewrite map_nth, Hm, Hx. simpl. rewrite !Rsign_zero. reflexivity. }
  unfold shape0 in Hi.
  assert (Hlog : nth i (KL.log_pdf kl X) (Fin 0) = NaN).
  { unfold KL.log_pdf, mat_vec.
    rewrite (nth_indep _ (Fin 0)
               ((fun r => vdot r (map np_log (KL.mean kl))) []))
      by (rewrite length_map; exact Hi).
    rewrite (map_nth (fun r => vdot r (map np_log (KL.mean kl)))).
    exact Hrow. }
  split; [exact Hlog | split].
  - unfold KL.pdf. fold (KL.log_pdf kl X).
    rewrite (nth_indep _ (Fin 0) (np_exp (Fin 0)))
      by (unfold KL.log_pdf, mat_vec; rewrite !length_map; exact Hi).
    rewrite map_nth, Hlog. reflexivity.
  - unfold KL.distances, vneg. fold (KL.log_pdf kl X).
    rewrite (nth_indep _ (Fin 0) (fneg (Fin 0)))
      by (unfold KL.log_pdf, mat_vec; rewrite !length_map; exact Hi).
    rewrite map_nth, Hlog. reflexivity.
Qed.

Lemma KL_zero_mean_entry_nan_witness :
  let kl := KL.mk (lift [1; 0]) in
  let X := lift2 2 [[1; 0]] in
  nth 0 (KL.log_pdf kl X) (Fin 0) = NaN /\
  nth 0 (KL.pdf kl X true) (Fin 0) = NaN /\
  nth 0 (KL.distances kl X) (Fin 0) = NaN.
Proof.
  apply (KL_zero_mean_entry_nan (KL.mk (lift [1; 0])) (lift2 2 [[1; 0]])
           1 2 0 1 true).
  - repeat split. unfold wf2d. simpl. forall_list; reflexivity.
  - reflexivity.
  - lia.
  - lia.
  - reflexivity.
  - reflexivity.
Defined.

(** ** Duration distributions *)

Lemma nth_arange (D i : nat) (f : float64 -> float64) :
  (i < D)%nat ->
  nth i (map f (np_arange 1 (D + 1))) (Fin 0) = f (Fin (INR (i + 1))).
Proof.
  intros Hi. unfold np_arange. rewrite Nat.add_sub, map_map.
  rewrite (nth_indep _ (Fin 0) ((fun k => f (Fin (INR k))) 0%nat))
    by (rewrite length_map, length_seq; exact Hi).
  rewrite (map_nth (fun k => f (Fin (INR k)))), seq_nth by exact Hi.
  rewrite (Nat.add_comm 1 i). reflexivity.
Qed.

(** X17.  [log_vec()] of [PoissonDuration] and of [NegativeBinomial] has
    exactly [D] entries, and entry [i] (from 0) is the log-probability of
    the duration [i + 1]: the durations are 1, ..., D. *)
Theorem log_vec_durations :
  (forall (logpmf : float64 -> float64 -> float64) (self : PoissonDuration.t),
      length (PoissonDuration.log_vec logpmf self) = PoissonDuration.D self /\
      forall i, (i < PoissonDuration.D self)%nat ->
        nth i (PoissonDuration.log_vec logpmf self) (Fin 0)
        = logpmf (Fin (INR (i + 1))) (PoissonDuration.lmbda self)) /\
  (forall (logpmf : float64 -> float64 -> float64 -> float64)
          (self : NegativeBinomial.t),
      length (NegativeBinomial.log_vec logpmf self) = NegativeBinomial.D self /\
      forall i, (i < NegativeBinomial.D self)%nat ->
        nth i (NegativeBinomial.log_vec logpmf self) (Fin 0)
        = logpmf (Fin (INR (i + 1))) (NegativeBinomial.r self)
                 (NegativeBinomial.p self)).
Proof.
  split; intros logpmf self; split.
  - unfold PoissonDuration.log_vec, DurationDistribution.log_vec,
      PoissonDuration.log_pmf, np_arange.
    rewrite !length_map, length_seq. apply Nat.add_sub.
  - intros i Hi.
    apply (nth_arange _ i
             (fun k => logpmf k (PoissonDuration.lmbda self)) Hi).
  - unfold NegativeBinomial.log_vec, DurationDistribution.log_vec,
      NegativeBinomial.log_pmf, np_arange.
    rewrite !length_map, length_seq. apply Nat.add_sub.
  - intros i Hi.
    apply (nth_arange _ i
             (fun k => logpmf k (NegativeBinomial.r self)
                              (NegativeBinomial.p self)) Hi).
Qed.

(** ** online_update with the identity, column by column *)

Lemma mat_mat_eye (M : ndarray2) :
  finite_mat M -> wf2d M -> mat_mat M (np_eye (shape1 M)) = M.
Proof.
  intros Hfin Hwf. destruct M as [K rws]. unfold mat_mat, wf2d, finite_mat in *.
  cbn [rows shape1 np_eye] in *. f_equal.
  rewrite <- (map_id rws) at 2. apply map_ext_in. intros r Hr.
  rewrite Forall_forall in Hfin, Hwf.
  destruct (finite_vec_lift r (Hfin r Hr)) as [l ->].
  rewrite <- (Hwf _ Hr), lift_length. apply vec_mat_eye.
Qed.

Lemma col_mscale (c : float64) (j : nat) (M : ndarray2) :
  finite c -> col j (mscale c M) = vscale c (col j M).
Proof.
  intros Hc. unfold col, mscale, vscale at 2. cbn [rows]. rewrite !map_map.
  apply map_ext. intros r. apply nth_vscale. exact Hc.
Qed.

Lemma col_zip_add (j k K : nat) (l : list vec) (x : vec) :
  Forall (fun r => length r = K) l -> (j < K)%nat -> length x = length l ->
  map (fun r => nth k r (Fin 0))
      (zip_with (fun row xi => set_nth j row (fadd (nth j row (Fin 0)) xi)) l x)
  = if Nat.eqb j k
    then vadd (map (fun r => nth j r (Fin 0)) l) x
    else map (fun r => nth k r (Fin 0)) l.
Proof.
  intros Hl Hj. revert x. unfold vadd.
  induction Hl as [| r l Hr _ IH]; intros [| a x] Hlen; simpl in Hlen;
    try discriminate.
  - destruct (Nat.eqb j k); reflexivity.
  - cbn [zip_with map]. rewrite (IH x) by lia.
    destruct (Nat.eqb_spec j k) as [-> | Hne].
    + rewrite nth_set_nth_same by (rewrite Hr; exact Hj). reflexivity.
    + rewrite nth_set_nth_other by exact Hne. reflexivity.
Qed.

(** The columns of [rho] after a call with the identity. *)
Lemma rho_next_eye_col (st : KLSufficientStatistics.t) (x : vec) (s : R)
    (k : nat) :
  wf_stats st -> finite_mat (KLSufficientStatistics.rho st) ->
  length x = shape0 (KLSufficientStatistics.rho st) ->
  col k (rho_next st x (np_eye (KLSufficientStatistics.K st)) (Fin s))
  = if Nat.eqb (KLSufficientStatistics.cluster_id st) k
    then vadd (vscale (Fin (1 - s))
                      (col (KLSufficientStatistics.cluster_id st)
                           (KLSufficientStatistics.rho st)))
              (vscale (Fin s) x)
    else vscale (Fin (1 - s)) (col k (KLSufficientStatistics.rho st)).
Proof.
  intros (_ & Hs1 & Hwf & Hcid) Hfin Hx.
  unfold rho_next. rewrite <- Hs1 at 1 2. rewrite (mat_mat_eye _ Hfin Hwf).
  change (fsub (Fin 1) (Fin s)) with (Fin (1 - s)).
  unfold col at 1. cbn [rows].
  rewrite (col_zip_add _ k (KLSufficientStatistics.K st)).
  - destruct (Nat.eqb _ k); rewrite <- (col_mscale (Fin (1 - s))) by exact I;
      reflexivity.
  - unfold mscale. cbn [rows]. apply Forall_map.
    unfold wf2d in Hwf. eapply Forall_impl; [| exact Hwf].
    intros r Hr. cbv beta in Hr. rewrite vscale_length. congruence.
  - exact Hcid.
  - unfold mscale. cbn [rows]. rewrite vscale_length, length_map. exact Hx.
Qed.

(** X18.  With the identity as [r], [online_update(x, I, s)] on finite
    well-shaped statistics returns; it updates column [cluster_id] of
    [rho] exactly as [KL.online_update(x, s)] updates a mean, and scales
    every other column by [1 - s]. *)
Theorem online_update_identity_columns :
  forall (st : KLSufficientStatistics.t) (x : vec) (s : R),
    wf_stats st ->
    finite_mat (KLSufficientStatistics.rho st) ->
    length x = shape0 (KLSufficientStatistics.rho st) ->
    let K := KLSufficientStatistics.K st in
    let cluster_id := KLSufficientStatistics.cluster_id st in
    exists st',
      KLSufficientStatistics.online_update st x (np_eye K) (Fin s) = Ok st' /\
      col cluster_id (KLSufficientStatistics.rho st')
      = KL.mean (KL.online_update
                   (KL.mk (col cluster_id (KLSufficientStatistics.rho st)))
                   x (Fin s)) /\
      (forall k, (k < K)%nat -> k <> cluster_id ->
          col k (KLSufficientStatistics.rho st')
          = vscale (Fin (1 - s)) (col k (KLSufficientStatistics.rho st))).
Proof.
  intros st x s Hwf Hfin Hx K cid. subst K cid.
  eexists. split.
  - apply online_update_success. cbn [np_eye shape1]. apply Hwf.
  - cbn [KLSufficientStatistics.rho]. split.
    + rewrite (rho_next_eye_col st x s _ Hwf Hfin Hx).
      rewrite Nat.eqb_refl. reflexivity.
    + intros k _ Hne. rewrite (rho_next_eye_col st x s k Hwf Hfin Hx).
      destruct (Nat.eqb_spec (KLSufficientStatistics.cluster_id st) k);
        [congruence | reflexivity].
Qed.

Lemma online_update_identity_columns_witness :
  let st := KLSufficientStatistics.mk 0 2 (lift [/ 4; 3 / 4])
              (lift2 2 [[1; 2]; [3; 4]]) in
  exists st',
    KLSufficientStatistics.online_update st (lift [5; 6]) (np_eye 2) (Fin (/ 2))
    = Ok st' /\
    col 0 (KLSufficientStatistics.rho st')
    = KL.mean (KL.online_update
                 (KL.mk (col 0 (KLSufficientStatistics.rho st)))
                 (lift [5; 6]) (Fin (/ 2))) /\
    (forall k, (k < 2)%nat -> k <> 0%nat ->
        col k (KLSufficientStatistics.rho st')
        = vscale (Fin (1 - / 2)) (col k (KLSufficientStatistics.rho st))).
Proof.
  apply (online_update_identity_columns
           (KLSufficientStatistics.mk 0 2 (lift [/ 4; 3 / 4])
              (lift2 2 [[1; 2]; [3; 4]])) (lift [5; 6]) (/ 2)).
  - unfold wf_stats, wf2d. simpl.
    repeat split; [forall_list; reflexivity | lia].
  - unfold finite_mat, finite_vec. simpl. forall_list; exact I.
  - reflexivity.
Defined.

(** ** The estimate read after repeated updates *)

Lemma rho_next_finite (st : KLSufficientStatistics.t) (x : vec) (r : ndarray2)
    (s : R) :
  finite_mat (KLSufficientStatistics.rho st) -> finite_mat r -> finite_vec x ->
  finite_mat (rho_next st x r (Fin s)).
Proof.
  intros HM Hr Hx. unfold rho_next, finite_mat. cbn [rows].
  apply (Forall_zip_with finite_vec finite).
  - intros row xi Hrow Hxi. apply set_nth_Forall; [exact Hrow |].
    apply fadd_finite; [apply nth_finite; exact Hrow | exact Hxi].
  - unfold mscale. cbn [rows]. apply Forall_map.
    pose proof (mat_mat_finite _ _ HM Hr) as Hmm.
    unfold finite_mat in Hmm. eapply Forall_impl; [| exact Hmm].
    intros row Hrow. apply vscale_finite; [exact I | exact Hrow].
  - apply vscale_finite; [exact I | exact Hx].
Qed.

Lemma np_eye_finite (K : nat) : finite_mat (np_eye K).
Proof.
  unfold finite_mat, np_eye. cbn [rows]. apply Forall_map. apply Forall_forall.
  intros i _. apply Forall_map. apply Forall_forall.
  intros j _. destruct (Nat.eqb i j); exact I.
Qed.

(** The state after [n] calls with the identity and a constant [x]. *)
Lemma repeat_update_eye_state (n : nat) :
  forall (st : KLSufficientStatistics.t) (xr l0 c0 : list R) (s : R),
    wf_stats st ->
    finite_mat (KLSufficientStatistics.rho st) ->
    length xr = shape0 (KLSufficientStatistics.rho st) ->
    KLSufficientStatistics.rho0 st = lift l0 ->
    col (KLSufficientStatistics.cluster_id st) (KLSufficientStatistics.rho st)
    = lift c0 ->
    exists st',
      repeat_update st (lift xr) (np_eye (KLSufficientStatistics.K st)) (Fin s) n
      = Ok st' /\
      wf_stats st' /\
      KLSufficientStatistics.K st' = KLSufficientStatistics.K st /\
      finite_mat (KLSufficientStatistics.rho st') /\
      KLSufficientStatistics.rho0 st'
      = lift (Nat.iter n (rho0_step s (KLSufficientStatistics.cluster_id st)) l0) /\
      col (KLSufficientStatistics.cluster_id st) (KLSufficientStatistics.rho st')
      = lift (Nat.iter n (ema_step s xr) c0).
Proof.
  unfold repeat_update.
  induction n as [| n IH]; intros st xr l0 c0 s Hwf Hfin Hx Hl Hc.
  - exists st. repeat split; try assumption; apply Hwf.
  - cbn [repeat KLSufficientStatistics.online_updates].
    pose proof Hwf as (Hl0 & Hs1 & Hwf2 & Hcid).
    rewrite online_update_success by (cbn [np_eye shape1]; exact Hcid).
    cbn [bind].
    set (st1 := KLSufficientStatistics.mk _ _ _ _).
    assert (Hx' : length (lift xr) = shape0 (KLSufficientStatistics.rho st))
      by (rewrite lift_length; exact Hx).
    destruct (rho_next_shape st (lift xr)
                (np_eye (KLSufficientStatistics.K st)) (Fin s) Hx')
      as (Hsh0 & Hsh1 & Hshwf).
    assert (HlK : length l0 = KLSufficientStatistics.K st).
    { rewrite Hl, lift_length in Hl0. exact Hl0. }
    destruct (IH st1 xr (rho0_step s (KLSufficientStatistics.cluster_id st) l0)
                (ema_step s xr c0) s)
      as (st' & Hok & Hwf' & HK' & Hfin' & Hrho0' & Hcol').
    + unfold wf_stats, st1.
      cbn [KLSufficientStatistics.rho0 KLSufficientStatistics.rho
           KLSufficientStatistics.K KLSufficientStatistics.cluster_id].
      rewrite rho0_next_length. cbn [np_eye shape1] in *.
      repeat split; assumption.
    + unfold st1. cbn [KLSufficientStatistics.rho].
      apply rho_next_finite;
        [exact Hfin | apply np_eye_finite | apply lift_finite].
    + unfold st1. cbn [KLSufficientStatistics.rho]. congruence.
    + unfold st1. cbn [KLSufficientStatistics.rho0].
      rewrite <- HlK. apply rho0_next_eye. exact Hl.
    + unfold st1.
      cbn [KLSufficientStatistics.rho KLSufficientStatistics.cluster_id].
      rewrite (rho_next_eye_col st (lift xr) s _ Hwf Hfin Hx').
      rewrite Nat.eqb_refl, Hc, !vscale_lift, vadd_lift. reflexivity.
    + exists st'. unfold st1 in *.
      cbn [KLSufficientStatistics.K KLSufficientStatistics.cluster_id] in *.
      rewrite !Nat.iter_succ_r.
      split; [exact Hok | split; [exact Hwf' | split; [exact HK' |]]].
      split; [exact Hfin' | split; [exact Hrho0' | exact Hcol']].
Qed.

Lemma pow_le_base (q : R) (n : nat) :
  0 <= q <= 1 -> (1 <= n)%nat -> 0 <= q ^ n <= q.
Proof.
  intros Hq Hn. destruct n as [| m]; [lia |].
  assert (Hm : 0 <= q ^ m <= 1).
  { clear Hn. induction m as [| m IH]; simpl; [lra | nra]. }
  simpl. nra.
Qed.

(** The ratio of the two geometric recurrences converges to [x]. *)
Lemma ratio_cv (s x c a : R) :
  0 < s < 1 -> 0 <= a ->
  Un_cv (fun n => (x + (1 - s) ^ n * (c - x))
                  / ((1 - s) ^ n * a + (1 - (1 - s) ^ n))) x.
Proof.
  intros Hs Ha eps Heps.
  assert (Hq : Rabs (1 - s) < 1) by (apply Rabs_def1; lra).
  destruct (geometric_cv_0 (1 - s) ((c - x * a) / s) Hq eps Heps) as [N HN].
  exists (Nat.max N 1). intros n Hn.
  assert (HnN : (n >= N)%nat) by lia. assert (Hn1 : (1 <= n)%nat) by lia.
  specialize (HN n HnN). unfold R_dist in *. rewrite Rminus_0_r in HN.
  destruct (pow_le_base (1 - s) n ltac:(lra) Hn1) as [Hp0 Hp1].
  set (p := (1 - s) ^ n) in *.
  assert (Hb : s <= p * a + (1 - p)) by nra.
  replace ((x + p * (c - x)) / (p * a + (1 - p)) - x)
    with (p * (c - x * a) / (p * a + (1 - p))) by (field; lra).
  replace (p * ((c - x * a) / s)) with (p * (c - x * a) / s) in HN
    by (field; lra).
  unfold Rdiv in *. rewrite Rabs_mult in *.
  rewrite (Rabs_right (/ s)) in HN
    by (left; apply Rinv_0_lt_compat; lra).
  rewrite (Rabs_right (/ (p * a + (1 - p))))
    by (left; apply Rinv_0_lt_compat; lra).
  apply Rle_lt_trans with (Rabs (p * (c - x * a)) * / s); [| exact HN].
  apply Rmult_le_compat_l; [apply Rabs_pos |].
  apply Rinv_le_contravar; lra.
Qed.



(** ** max_likelihood: unit weights and rescaled weights *)

Lemma weighted_mean_ones (X : ndarray2) :
  weighted_mean X (np_ones (shape0 X)) = sample_mean X.
Proof.
  unfold weighted_mean, sample_mean, sum_axis0, scale_rows, shape0.
  cbn [rows shape1]. rewrite np_sum_ones, scale_rows_ones. reflexivity.
Qed.

Lemma select_all_true {A : Type} (l : list A) :
  select (repeat true (length l)) l = l.
Proof. induction l as [| a l IH]; simpl; [reflexivity |]. rewrite IH. reflexivity. Qed.

(** X20.  On an N×D batch, the all-ones weights of length N and the
    all-True mask of length N both make [SquareDistance.max_likelihood]
    and [KL.max_likelihood] store the unweighted sample mean of the rows. *)
Theorem max_likelihood_unit_weights_mean :
  forall (X : ndarray2) (N D : nat) (w : weights),
    has_shape N D X ->
    w = WFloat (np_ones N) \/ w = WBool (repeat true N) ->
    (forall sd, exists sd',
        SquareDistance.max_likelihood sd X w = Ok sd' /\
        SquareDistance.mean sd' = sample_mean X) /\
    (forall kl, KL.max_likelihood kl X w = Ok (KL.mk (sample_mean X))).
Proof.
  intros X N D w (H0 & _ & _) Hw.
  assert (Hmean : match w with
                  | WBool mask => mean_axis0 (select_rows mask X)
                  | WFloat v => weighted_mean X v
                  end = sample_mean X).
  { destruct Hw as [-> | ->]; rewrite <- H0.
    - apply weighted_mean_ones.
    - unfold mean_axis0, select_rows, sum_axis0, sample_mean, shape0.
      cbn [rows shape1]. rewrite select_all_true. reflexivity. }
  split.
  - intros sd. eexists. split; [reflexivity |].
    cbn [SquareDistance.mean]. exact Hmean.
  - intros kl. unfold KL.max_likelihood. rewrite <- Hmean.
    destruct w; reflexivity.
Qed.

Lemma max_likelihood_unit_weights_mean_witness :
  let X := lift2 2 [[1; 2]; [3; 4]] in
  (forall sd, exists sd',
      SquareDistance.max_likelihood sd X (WBool (repeat true 2)) = Ok sd' /\
      SquareDistance.mean sd' = sample_mean X) /\
  (forall kl, KL.max_likelihood kl X (WBool (repeat true 2))
              = Ok (KL.mk (sample_mean X))).
Proof.
  apply (max_likelihood_unit_weights_mean (lift2 2 [[1; 2]; [3; 4]]) 2 2
           (WBool (repeat true 2))).
  - repeat split. unfold wf2d. simpl. forall_list; reflexivity.
  - right. reflexivity.
Defined.

Lemma Rwsum_scale (D : nat) (c : R) (w : list R) (XR : list (list R)) :
  Forall (fun r => length r = D) XR ->
  Rwsum D (map (Rmult c) w) XR = map (Rmult c) (Rwsum D w XR).
Proof.
  intros HX. revert w. unfold Rwsum.
  induction HX as [| r XR Hr HX IH]; intros w.
  - destruct w; simpl; rewrite map_repeat; f_equal; lra.
  - destruct w as [| a w].
    + simpl. rewrite map_repeat. f_equal. lra.
    + cbn [map zip_with fold_right]. rewrite IH.
      clear IH.
      generalize (fold_right (zip_with Rplus) (repeat 0 D)
                    (zip_with (fun a0 r0 => map (Rmult a0) r0) w XR)).
      intros t. clear. revert t.
      induction r as [| x r IH]; intros [| y t]; simpl; try reflexivity.
      rewrite IH. f_equal. ring.
Qed.

Lemma Rgram_scale (c : R) (w : list R) (ds : list (list R)) (j k : nat) :
  Rgram (map (Rmult c) w) ds j k = c * Rgram w ds j k.
Proof.
  revert ds. induction w as [| a w IH]; intros ds.
  - cbn [map]. rewrite !Rgram_nil by (left; reflexivity). ring.
  - destruct ds as [| d ds].
    + rewrite !Rgram_nil by (right; reflexivity). ring.
    + cbn [map]. rewrite !Rgram_cons, IH. ring.
Qed.

Lemma Rdot_scale_r (c : R) (a b : list R) :
  Rdot a (map (Rmult c) b) = c * Rdot a b.
Proof.
  unfold Rdot. revert b.
  induction a as [| x a IH]; intros [| y b]; simpl; try lra.
  rewrite IH. ring.
Qed.

(** The covariance on real numbers: entry (j, k) is [Rgram / Σ w]. *)
Lemma cov_lift (D : nat) (dr : list (list R)) (wr : list R) :
  Rsum wr <> 0 ->
  mdivs (mat_mat (transpose (mk2d D (map lift dr)))
                 (scale_rows (lift wr) (mk2d D (map lift dr))))
        (Fin (Rsum wr))
  = mk2d D (map (fun j => map (fun k => Fin (Rgram wr dr j k * / Rsum wr))
                              (seq 0 D))
                (seq 0 D)).
Proof.
  intros HW. rewrite cov_rows. cbn [shape1]. f_equal.
  apply map_ext. intros j. apply map_ext. intros k.
  unfold scale_rows. cbn [rows shape1].
  rewrite zip_vscale_lift, !col_lift, vdot_lift.
  rewrite fdiv_fin by exact HW. reflexivity.
Qed.


